(** * LogData: the content of a log file (glogg-io, src/logdata/src/logdata.cpp)

    A shallow embedding of the [LogData] facade: the operation queue, the
    file-change slot, the end-of-indexing slot, the display-encoding switch
    and the four line readers, followed by the properties the specification
    states about them.

    What the facade calls but does not define (Qt's codecs and files, the
    indexing data and the indexer thread) enters as data: a codec is the
    record of its observable behaviour, a file is the bytes reachable through
    its descriptor, the worker thread is the list of calls it has received.

    Line numbers, line counts and byte offsets are integers; the one sum of
    line numbers that can leave the unsigned range, [first_line + number - 1],
    wraps.  Log lines below the warning level and memory reservation have no
    part in what follows and are left out; a warning is an event. *)

From Stdlib Require Import String Ascii ZArith List Bool Lia.
From Stdlib.Strings Require Import Byte.
Import ListNotations.
Open Scope Z_scope.

(** ** Bytes and strings *)

Definition QByteArray := list byte.
(** A [QChar] is one UTF-16 code unit. *)
Definition QChar := Z.
Definition QString := list QChar.

Definition LF : byte := x0a.
Definition QChar_Tabulation : QChar := 9.
Definition QChar_Space : QChar := 32.

Definition is_LF (b : byte) : bool := Byte.eqb b LF.

(** [QString::chop(n)]: removes [n] characters from the end; the string
    becomes empty when [n] is at least its size. *)
Definition chop (n : nat) (s : QString) : QString :=
  firstn (length s - n) s.

(** Literals, for examples. *)
Definition bytes_of (s : string) : QByteArray := list_byte_of_string s.
Definition qstring_of (s : string) : QString :=
  map (fun a => Z.of_N (N_of_ascii a)) (list_ascii_of_string s).
Definition nl : string := String "010" EmptyString.
Definition tab : string := String "009" EmptyString.

(** ** Text codecs (Qt) *)

(** [QTextCodec::ConverterState]: what a decoder carries from one call of
    [toUnicode] to the next (the bytes of an unfinished sequence). *)
Definition ConverterState := QByteArray.

Record QTextCodec := {
  mibEnum : Z;
  (** stateless [QTextCodec::toUnicode(const QByteArray&)] *)
  toUnicode : QByteArray -> QString;
  (** [QTextDecoder::toUnicode(const char*, int)] of a decoder made by
      [makeDecoder], with the state it leaves behind *)
  decoderToUnicode : ConverterState -> QByteArray -> QString * ConverterState;
}.

(** A fresh decoder has nothing pending. *)
Definition makeDecoder (c : QTextCodec) : ConverterState := [].

(** A codec that turns every byte into one code unit, whatever surrounds it
    (ISO-8859-1 and its single-byte relatives). *)
Definition single_byte (c : QTextCodec) : Prop :=
  exists f : byte -> QChar,
    (forall bs, toUnicode c bs = map f bs) /\
    (forall st bs, decoderToUnicode c st bs = (map f bs, st)).


Definition latin1_char (b : byte) : QChar := Z.of_N (Byte.to_N b).

(** ISO-8859-1 (MIB 4): byte [b] is the character U+00[b]. *)
Definition latin1 : QTextCodec := {|
  mibEnum := 4;
  toUnicode := map latin1_char;
  decoderToUnicode := fun st bs => (map latin1_char bs, st);
|}.

(** ** What the translation unit takes from elsewhere *)

Class Platform := {
  (** width in bits of the unsigned integer under [LineNumber] and
      [LinesCount] (declared in a header that is not part of the sources) *)
  line_bits : N;
  (** Qt's codec registry, [QTextCodec::codecForName]; [None] is the null
      pointer returned for an unknown name *)
  codecForName : string -> option QTextCodec;
  (** [EncodingParameters(codec)], compared with [!=]: the byte-width class
      of a codec *)
  EncParams : Type;
  EncodingParameters : QTextCodec -> EncParams;
  EncParams_eq_dec : forall a b : EncParams, {a = b} + {a <> b};
}.

(** ** Tab expansion *)

(** Modelled from the spec: [untabify] is declared outside the sources; "a
    tab at column c advances to the next multiple of 8". *)
Definition TabStop : Z := 8.

Fixpoint untabify_from (col : Z) (s : QString) : QString :=
  match s with
  | [] => []
  | ch :: rest =>
      if ch =? QChar_Tabulation then
        let spaces := TabStop - col mod TabStop in
        repeat QChar_Space (Z.to_nat spaces) ++ untabify_from (col + spaces) rest
      else ch :: untabify_from (col + 1) rest
  end.

Definition untabify (s : QString) : QString := untabify_from 0 s.

(** ** Files *)

Inductive OpenMode := NotOpen | ReadOnly.

(** A [QFile]: its name, whether it is open, the bytes that can be read
    through the open descriptor (those of the file it was opened on, which
    may since have grown or been renamed) and the read position. *)
Record QFile := {
  fileName : string;
  openMode : OpenMode;
  contents : QByteArray;
  filePos : Z;
}.

(** What is on disk under a name: bytes and modification time. *)
Record DiskFile := {
  d_bytes : QByteArray;
  d_lastModified : Z;
}.

Definition Disk := string -> option DiskFile.

Definition len (bs : QByteArray) : Z := Z.of_nat (length bs).

(** [QFileInfo(name).size()]: 0 when the file does not exist. *)
Definition QFileInfo_size (d : Disk) (name : string) : Z :=
  match d name with Some f => len (d_bytes f) | None => 0 end.

(** [QFileInfo(name).lastModified()]: a null date when the file does not
    exist. *)
Definition QFileInfo_lastModified (d : Disk) (name : string) : option Z :=
  match d name with Some f => Some (d_lastModified f) | None => None end.

Definition QFileInfo_exists (d : Disk) (name : string) : bool :=
  match d name with Some _ => true | None => false end.

(** [new QFile(name)] *)
Definition QFile_new (name : string) : QFile :=
  {| fileName := name; openMode := NotOpen; contents := []; filePos := 0 |}.

(** [open(QIODevice::ReadOnly)]: fails, leaving the file closed, when there
    is nothing under the name. *)
Definition QFile_open (d : Disk) (f : QFile) : QFile :=
  match d (fileName f) with
  | Some on_disk =>
      {| fileName := fileName f; openMode := ReadOnly;
         contents := d_bytes on_disk; filePos := 0 |}
  | None => f
  end.

(** [size()]: of the open descriptor, or of the name for a closed file. *)
Definition QFile_size (d : Disk) (f : QFile) : Z :=
  match openMode f with
  | ReadOnly => len (contents f)
  | NotOpen => QFileInfo_size d (fileName f)
  end.

(** [seek(pos)]: refused on a closed file and for a negative position. *)
Definition QFile_seek (pos : Z) (f : QFile) : QFile :=
  match openMode f with
  | ReadOnly =>
      if pos <? 0 then f
      else {| fileName := fileName f; openMode := ReadOnly;
              contents := contents f; filePos := pos |}
  | NotOpen => f
  end.

(** The bytes up to and including the first ['\n'], or all of them. *)
Fixpoint take_line (bs : QByteArray) : QByteArray :=
  match bs with
  | [] => []
  | b :: rest => if is_LF b then [b] else b :: take_line rest
  end.

Definition advance (n : Z) (f : QFile) : QFile :=
  {| fileName := fileName f; openMode := openMode f;
     contents := contents f; filePos := filePos f + n |}.

(** [readLine()]: nothing from a closed file. *)
Definition QFile_readLine (f : QFile) : QByteArray * QFile :=
  match openMode f with
  | ReadOnly =>
      let raw := take_line (skipn (Z.to_nat (filePos f)) (contents f)) in
      (raw, advance (len raw) f)
  | NotOpen => ([], f)
  end.

(** [read(maxSize)]: at most [maxSize] bytes from the position; nothing
    from a closed file or for a negative size. *)
Definition QFile_read (maxSize : Z) (f : QFile) : QByteArray * QFile :=
  match openMode f with
  | ReadOnly =>
      if maxSize <? 0 then ([], f)
      else
        let raw := firstn (Z.to_nat maxSize)
                          (skipn (Z.to_nat (filePos f)) (contents f)) in
        (raw, advance (len raw) f)
  | NotOpen => ([], f)
  end.

(** ** Indexing data *)

(** Modelled from the spec: [IndexingData] is defined outside the sources.
    It holds the indexed size, the end offset of every indexed line, the
    longest length, the forced encoding if any and the guessed one. *)
Record IndexingData := {
  indexedSize : Z;
  linePosition : list Z;
  maxLength : Z;
  forcedEncoding : option QTextCodec;
  encodingGuess : QTextCodec;
}.

Definition getSize (d : IndexingData) : Z := indexedSize d.
Definition getNbLines (d : IndexingData) : Z := Z.of_nat (length (linePosition d)).
Definition getMaxLength (d : IndexingData) : Z := maxLength d.
Definition getForcedEncoding (d : IndexingData) : option QTextCodec := forcedEncoding d.
Definition getEncodingGuess (d : IndexingData) : QTextCodec := encodingGuess d.

(** [pos_for_line]: the end offset of the line; there is none for a line
    that is not indexed. *)
Definition getPosForLine (d : IndexingData) (line : Z) : option Z :=
  if line <? 0 then None else nth_error (linePosition d) (Z.to_nat line).

(** Modelled from the spec: the indexing data of a facade that was just
    created is empty, with the Latin-1 fallback as guess. *)
Definition IndexingData_empty : IndexingData := {|
  indexedSize := 0;
  linePosition := [];
  maxLength := 0;
  forcedEncoding := None;
  encodingGuess := latin1;
|}.

(** ** Operations, statuses, effects *)

Inductive LogDataOperation :=
| AttachOperation (filename_ : string)
| FullIndexOperation (forcedEncoding_ : option QTextCodec)
| PartialIndexOperation.

Inductive LoadingStatus := Successful | Interrupted | NoMemory.

Inductive MonitoredFileStatus := Unchanged | DataAdded | Truncated.

(** Calls received by the [LogDataWorkerThread]. *)
Inductive WorkerCall :=
| W_start
| W_attachFile (filename : string)
| W_indexAll (forcedEncoding : option QTextCodec)
| W_indexAdditionalLines
| W_interrupt.

(** What the facade does to the outside, in order: the file mutex, accesses
    to the source, warnings logged, files handed to the watcher, signals. *)
Inductive Event :=
| MutexLock
| MutexUnlock
| FileSeek (pos : Z)
| FileReadLine
| FileRead (maxSize : Z)
| LogWarning (message : string)
| WatcherAddFile (name : string)
| Emit_fileChanged (status : MonitoredFileStatus)
| Emit_loadingFinished (status : LoadingStatus).

Inductive Exception := CantReattachErr.

(** Ways of leaving defined behaviour. *)
Inductive Fault :=
| NullDereference
| AssertionFailure
| LineNotIndexed
| BufferOverrun.

Definition MonitoredFileStatus_eqb (a b : MonitoredFileStatus) : bool :=
  match a, b with
  | Unchanged, Unchanged | DataAdded, DataAdded | Truncated, Truncated => true
  | _, _ => false
  end.

Definition LoadingStatus_eqb (a b : LoadingStatus) : bool :=
  match a, b with
  | Successful, Successful | Interrupted, Interrupted | NoMemory, NoMemory => true
  | _, _ => false
  end.

(** ** The facade and the world around it *)

(** The members of [LogData].  A pointer member is an [option]; the worker
    thread is the list of the calls made to it. *)
Record LogData := {
  indexing_data_ : IndexingData;
  attached_file_ : option QFile;
  currentOperation_ : option LogDataOperation;
  nextOperation_ : option LogDataOperation;
  codec_ : option QTextCodec;
  fileChangedOnDisk_ : MonitoredFileStatus;
  lastModifiedDate_ : option Z;
  workerThread_ : list WorkerCall;
}.

Definition set_attached_file_ (v : option QFile) (d : LogData) : LogData :=
  {| indexing_data_ := indexing_data_ d; attached_file_ := v;
     currentOperation_ := currentOperation_ d; nextOperation_ := nextOperation_ d;
     codec_ := codec_ d; fileChangedOnDisk_ := fileChangedOnDisk_ d;
     lastModifiedDate_ := lastModifiedDate_ d; workerThread_ := workerThread_ d |}.

Definition set_currentOperation_ (v : option LogDataOperation) (d : LogData) : LogData :=
  {| indexing_data_ := indexing_data_ d; attached_file_ := attached_file_ d;
     currentOperation_ := v; nextOperation_ := nextOperation_ d;
     codec_ := codec_ d; fileChangedOnDisk_ := fileChangedOnDisk_ d;
     lastModifiedDate_ := lastModifiedDate_ d; workerThread_ := workerThread_ d |}.

Definition set_nextOperation_ (v : option LogDataOperation) (d : LogData) : LogData :=
  {| indexing_data_ := indexing_data_ d; attached_file_ := attached_file_ d;
     currentOperation_ := currentOperation_ d; nextOperation_ := v;
     codec_ := codec_ d; fileChangedOnDisk_ := fileChangedOnDisk_ d;
     lastModifiedDate_ := lastModifiedDate_ d; workerThread_ := workerThread_ d |}.

Definition set_codec_ (v : option QTextCodec) (d : LogData) : LogData :=
  {| indexing_data_ := indexing_data_ d; attached_file_ := attached_file_ d;
     currentOperation_ := currentOperation_ d; nextOperation_ := nextOperation_ d;
     codec_ := v; fileChangedOnDisk_ := fileChangedOnDisk_ d;
     lastModifiedDate_ := lastModifiedDate_ d; workerThread_ := workerThread_ d |}.

Definition set_fileChangedOnDisk_ (v : MonitoredFileStatus) (d : LogData) : LogData :=
  {| indexing_data_ := indexing_data_ d; attached_file_ := attached_file_ d;
     currentOperation_ := currentOperation_ d; nextOperation_ := nextOperation_ d;
     codec_ := codec_ d; fileChangedOnDisk_ := v;
     lastModifiedDate_ := lastModifiedDate_ d; workerThread_ := workerThread_ d |}.

Definition set_lastModifiedDate_ (v : option Z) (d : LogData) : LogData :=
  {| indexing_data_ := indexing_data_ d; attached_file_ := attached_file_ d;
     currentOperation_ := currentOperation_ d; nextOperation_ := nextOperation_ d;
     codec_ := codec_ d; fileChangedOnDisk_ := fileChangedOnDisk_ d;
     lastModifiedDate_ := v; workerThread_ := workerThread_ d |}.

Definition set_workerThread_ (v : list WorkerCall) (d : LogData) : LogData :=
  {| indexing_data_ := indexing_data_ d; attached_file_ := attached_file_ d;
     currentOperation_ := currentOperation_ d; nextOperation_ := nextOperation_ d;
     codec_ := codec_ d; fileChangedOnDisk_ := fileChangedOnDisk_ d;
     lastModifiedDate_ := lastModifiedDate_ d; workerThread_ := v |}.

(** The object, the disk it looks at, and what it has done so far. *)
Record World := {
  this : LogData;
  disk : Disk;
  events : list Event;
}.

(** ** A monad for member functions: state, C++ exceptions, faults *)

Inductive Outcome (A : Type) :=
| Return (a : A) (w : World)
| Throw (e : Exception) (w : World)
| Crash (f : Fault).

Arguments Return {A} a w.
Arguments Throw {A} e w.
Arguments Crash {A} f.

Definition M (A : Type) := World -> Outcome A.

Definition ret {A} (a : A) : M A := fun w => Return a w.

Definition bind {A B} (m : M A) (k : A -> M B) : M B :=
  fun w =>
    match m w with
    | Return a w' => k a w'
    | Throw e w' => Throw e w'
    | Crash f => Crash f
    end.

Notation "x <- m ;; k" := (bind m (fun x => k))
  (at level 61, m at next level, right associativity).
Notation "m ;; k" := (bind m (fun _ => k))
  (at level 61, right associativity).

Definition get : M LogData := fun w => Return (this w) w.

Definition update (f : LogData -> LogData) : M unit :=
  fun w => Return tt {| this := f (this w); disk := disk w; events := events w |}.

Definition getDisk : M Disk := fun w => Return (disk w) w.

Definition emit (e : Event) : M unit :=
  fun w => Return tt {| this := this w; disk := disk w; events := events w ++ [e] |}.

Definition throw {A} (e : Exception) : M A := fun w => Throw e w.

Definition crash {A} (f : Fault) : M A := fun _ => Crash f.

Definition call_worker (c : WorkerCall) : M unit :=
  update (fun d => set_workerThread_ (workerThread_ d ++ [c]) d).

(** [attached_file_->...]: undefined on the null pointer. *)
Definition attached : M QFile :=
  d <- get ;;
  match attached_file_ d with
  | Some f => ret f
  | None => crash NullDereference
  end.

(** [codec_->...] *)
Definition the_codec : M QTextCodec :=
  d <- get ;;
  match codec_ d with
  | Some c => ret c
  | None => crash NullDereference
  end.

(** [indexing_data_.getPosForLine( line ).get()] *)
Definition posForLine (line : Z) : M Z :=
  d <- get ;;
  match getPosForLine (indexing_data_ d) line with
  | Some pos => ret pos
  | None => crash LineNotIndexed
  end.

Definition file_seek (pos : Z) : M unit :=
  f <- attached ;;
  emit (FileSeek pos) ;;
  update (set_attached_file_ (Some (QFile_seek pos f))).

Definition file_readLine : M QByteArray :=
  f <- attached ;;
  emit FileReadLine ;;
  update (set_attached_file_ (Some (snd (QFile_readLine f)))) ;;
  ret (fst (QFile_readLine f)).

Definition file_read (maxSize : Z) : M QByteArray :=
  f <- attached ;;
  emit (FileRead maxSize) ;;
  update (set_attached_file_ (Some (snd (QFile_read maxSize f)))) ;;
  ret (fst (QFile_read maxSize f)).

Definition lift_fault {A} (r : Fault + A) : M A :=
  match r with
  | inl f => crash f
  | inr a => ret a
  end.

(** [blob.data() + beginning] read over [n] bytes.  [QByteArray::data()]
    points at the bytes of the array followed by one NUL: a read is defined
    inside these, and nowhere else. *)
Definition blob_at (blob : QByteArray) (beginning n : Z) : option QByteArray :=
  if (0 <=? beginning) && (0 <=? n) && (beginning + n <=? len blob + 1)
  then Some (firstn (Z.to_nat n) (skipn (Z.to_nat beginning) (blob ++ [x00])))
  else None.

(** The body of the loop of [doGetLines] and [doGetExpandedLines],
    [for ( line = first_line; line <= last_line; ++line )], run for the
    [todo] lines that remain; [finish] is the identity in the first and
    [untabify] in the second. *)
Fixpoint lines_loop (finish : QString -> QString) (idx : IndexingData)
    (codec : QTextCodec) (blob : QByteArray) (first_byte : Z)
    (todo : nat) (line beginning : Z) (decoder : ConverterState)
    : Fault + list QString :=
  match todo with
  | O => inr []
  | S todo' =>
      match getPosForLine idx line with
      | None => inl LineNotIndexed
      | Some pos =>
          let end_ := pos - first_byte in
          match blob_at blob beginning (end_ - beginning - 1) with
          | None => inl BufferOverrun
          | Some chars =>
              let decoded := decoderToUnicode codec decoder chars in
              match lines_loop finish idx codec blob first_byte
                               todo' (line + 1) end_ (snd decoded) with
              | inl f => inl f
              | inr list => inr (finish (fst decoded) :: list)
              end
          end
      end
  end.

Section Facade.

Context {platform : Platform}.

(** Arithmetic on [LineNumber] and [LinesCount] is unsigned and wraps. *)
Definition wrap_line (z : Z) : Z := z mod 2 ^ Z.of_N line_bits.

(** [first_line + number - 1_lcount] *)
Definition last_line_of (first_line number : Z) : Z :=
  wrap_line (first_line + number - 1).

(** ** Implementation of the 'start' functions for each operation *)

Definition doStart (op : LogDataOperation) : M unit :=
  match op with
  | AttachOperation filename_ =>
      call_worker (W_attachFile filename_) ;;
      call_worker (W_indexAll None)
  | FullIndexOperation forcedEncoding_ =>
      call_worker (W_indexAll forcedEncoding_)
  | PartialIndexOperation =>
      call_worker W_indexAdditionalLines
  end.

(** Constructs an empty log file.  [fileChangedOnDisk_] is not initialised
    by the constructor: [uninit] is whatever it holds. *)
Definition LogData_new (uninit : MonitoredFileStatus) : LogData := {|
  indexing_data_ := IndexingData_empty;
  attached_file_ := None;
  currentOperation_ := None;
  nextOperation_ := None;
  codec_ := codecForName "ISO-8859-1";
  fileChangedOnDisk_ := uninit;
  lastModifiedDate_ := None;
  workerThread_ := [W_start];
|}.

(** ** Private functions *)

(** Performs the current operation asynchronously. *)
Definition startOperation : M unit :=
  d <- get ;;
  match currentOperation_ d with
  | Some op => doStart op
  | None => ret tt
  end.

(** Add an operation to the queue and perform it immediately if there is
    none ongoing. *)
Definition enqueueOperation (new_operation : LogDataOperation) : M unit :=
  d <- get ;;
  match currentOperation_ d with
  | None =>
      update (set_currentOperation_ (Some new_operation)) ;;
      startOperation
  | Some _ =>
      update (set_nextOperation_ (Some new_operation))
  end.

(** Close and reopen the file. *)
Definition reOpenFile : M unit :=
  file <- attached ;;
  dsk <- getDisk ;;
  let reopened := QFile_open dsk (QFile_new (fileName file)) in
  emit MutexLock ;;
  update (set_attached_file_ (Some reopened)) ;;
  emit MutexUnlock.

(** ** Public functions *)

Definition attachFile (fileName : string) : M unit :=
  d <- get ;;
  match attached_file_ d with
  | Some _ =>
      (* We cannot reattach *)
      throw CantReattachErr
  | None =>
      dsk <- getDisk ;;
      update (set_attached_file_ (Some (QFile_open dsk (QFile_new fileName)))) ;;
      enqueueOperation (AttachOperation fileName)
  end.

Definition interruptLoading : M unit := call_worker W_interrupt.

Definition getFileSize : M Z :=
  d <- get ;; ret (getSize (indexing_data_ d)).

Definition getLastModifiedDate : M (option Z) :=
  d <- get ;; ret (lastModifiedDate_ d).

Definition reload (forcedEncoding : option QTextCodec) : M unit :=
  call_worker W_interrupt ;;
  reOpenFile ;;
  enqueueOperation (FullIndexOperation forcedEncoding).

(** ** Slots *)

Definition fileChangedOnDisk (filename : string) : M unit :=
  file <- attached ;;
  let name := fileName file in
  dsk <- getDisk ;;
  d <- get ;;
  let file_size := getSize (indexing_data_ d) in
  (if negb (QFileInfo_size dsk name =? QFile_size dsk file)
      || match openMode file with NotOpen => true | ReadOnly => false end
   then reOpenFile
   else ret tt) ;;
  file' <- attached ;;
  let real_file_size := QFile_size dsk file' in
  newOperation <-
    (if real_file_size <? file_size then
       update (set_fileChangedOnDisk_ Truncated) ;;
       ret (Some (FullIndexOperation None))
     else if real_file_size =? file_size then
       ret None
     else
       d' <- get ;;
       if negb (MonitoredFileStatus_eqb (fileChangedOnDisk_ d') DataAdded) then
         update (set_fileChangedOnDisk_ DataAdded) ;;
         ret (Some PartialIndexOperation)
       else ret None) ;;
  match newOperation with
  | Some op =>
      enqueueOperation op ;;
      update (set_lastModifiedDate_ (QFileInfo_lastModified dsk name)) ;;
      d'' <- get ;;
      emit (Emit_fileChanged (fileChangedOnDisk_ d''))
  | None => ret tt
  end.

Definition indexingFinished (status : LoadingStatus) : M unit :=
  (if LoadingStatus_eqb status Successful then
     (* Start watching we watch the file for updates *)
     update (set_fileChangedOnDisk_ Unchanged) ;;
     file <- attached ;;
     emit (WatcherAddFile (fileName file)) ;;
     (* Update the modified date/time if the file exists *)
     update (set_lastModifiedDate_ None) ;;
     dsk <- getDisk ;;
     if QFileInfo_exists dsk (fileName file) then
       update (set_lastModifiedDate_ (QFileInfo_lastModified dsk (fileName file)))
     else ret tt
   else ret tt) ;;
  update (set_fileChangedOnDisk_ Unchanged) ;;
  emit (Emit_loadingFinished status) ;;
  (* assert( currentOperation_ ) *)
  d <- get ;;
  match currentOperation_ d with
  | Some _ => ret tt
  | None => crash AssertionFailure
  end ;;
  update (fun d => set_nextOperation_ None
                     (set_currentOperation_ (nextOperation_ d) d)) ;;
  d' <- get ;;
  match currentOperation_ d' with
  | Some _ => startOperation
  | None => ret tt
  end.

(** ** Implementation of virtual functions *)

Definition doGetNbLine : M Z :=
  d <- get ;; ret (getNbLines (indexing_data_ d)).

Definition doGetMaxLength : M Z :=
  d <- get ;; ret (getMaxLength (indexing_data_ d)).

Definition doSetDisplayEncoding (encoding : string) : M unit :=
  update (set_codec_ (codecForName encoding)) ;;
  d <- get ;;
  let currentIndexCodec :=
    match getForcedEncoding (indexing_data_ d) with
    | Some forced => forced
    | None => getEncodingGuess (indexing_data_ d)
    end in
  codec <- the_codec ;;
  if negb (mibEnum codec =? mibEnum currentIndexCodec) then
    if EncParams_eq_dec (EncodingParameters codec)
                        (EncodingParameters currentIndexCodec)
    then ret tt
    else
      let isGuessedCodec :=
        mibEnum codec =? mibEnum (getEncodingGuess (indexing_data_ d)) in
      reload (if isGuessedCodec then None else Some codec)
  else ret tt.

Definition doGetDisplayEncoding : M (option QTextCodec) :=
  d <- get ;; ret (codec_ d).

(** The byte a line starts at: [( line.get() == 0 ) ? 0 :
    getPosForLine( line - 1_lcount )]; [line] is not 0 where 1 is taken
    off, so nothing wraps. *)
Definition start_of_line (line : Z) : M Z :=
  if line =? 0 then ret 0 else posForLine (line - 1).

Definition doGetLineString (line : Z) : M QString :=
  d <- get ;;
  if getNbLines (indexing_data_ d) <=? line then ret []
  else
    emit MutexLock ;;
    pos <- start_of_line line ;;
    file_seek pos ;;
    rawString <- file_readLine ;;
    emit MutexUnlock ;;
    codec <- the_codec ;;
    ret (chop 1 (toUnicode codec rawString)).

Definition doGetExpandedLineString (line : Z) : M QString :=
  d <- get ;;
  if getNbLines (indexing_data_ d) <=? line then ret []
  else
    emit MutexLock ;;
    pos <- start_of_line line ;;
    file_seek pos ;;
    rawString <- file_readLine ;;
    emit MutexUnlock ;;
    codec <- the_codec ;;
    ret (chop 1 (untabify (toUnicode codec rawString))).

Definition doGetLineLength (line : Z) : M Z :=
  d <- get ;;
  if getNbLines (indexing_data_ d) <=? line then ret 0
  else
    s <- doGetExpandedLineString line ;;
    ret (Z.of_nat (length s)).

Definition doGetLines (first_line number : Z) : M (list QString) :=
  d <- get ;;
  let last_line := last_line_of first_line number in
  if number =? 0 then ret []
  else if getNbLines (indexing_data_ d) <=? last_line then
    emit (LogWarning "LogData::doGetLines Lines out of bound asked for") ;;
    ret []
  else
    first_byte <- start_of_line first_line ;;
    last_byte <- posForLine last_line ;;
    emit MutexLock ;;
    file_seek first_byte ;;
    blob <- file_read (last_byte - first_byte) ;;
    emit MutexUnlock ;;
    codec <- the_codec ;;
    lift_fault (lines_loop (fun s => s) (indexing_data_ d) codec blob first_byte
                           (Z.to_nat (last_line - first_line + 1))
                           first_line 0 (makeDecoder codec)).

Definition doGetExpandedLines (first_line number : Z) : M (list QString) :=
  d <- get ;;
  let last_line := last_line_of first_line number in
  if number =? 0 then ret []
  else if getNbLines (indexing_data_ d) <=? last_line then
    emit (LogWarning "LogData::doGetExpandedLines Lines out of bound asked for") ;;
    ret []
  else
    emit MutexLock ;;
    first_byte <- start_of_line first_line ;;
    last_byte <- posForLine last_line ;;
    file_seek first_byte ;;
    blob <- file_read (last_byte - first_byte) ;;
    emit MutexUnlock ;;
    codec <- the_codec ;;
    lift_fault (lines_loop untabify (indexing_data_ d) codec blob first_byte
                           (Z.to_nat (last_line - first_line + 1))
                           first_line 0 (makeDecoder codec)).

Definition getDetectedEncoding : M QTextCodec :=
  d <- get ;; ret (getEncodingGuess (indexing_data_ d)).

End Facade.

(** ** The index and the bytes it describes *)

(** [bs[from .. to)] *)
Definition slice (bs : QByteArray) (from to : Z) : QByteArray :=
  firstn (Z.to_nat (to - from)) (skipn (Z.to_nat from) bs).

Definition byte_at (bs : QByteArray) (i : Z) : option byte :=
  if i <? 0 then None else nth_error bs (Z.to_nat i).

Definition no_LF (bs : QByteArray) : bool :=
  forallb (fun b => negb (is_LF b)) bs.

Definition ends_with_LF (bs : QByteArray) (e : Z) : bool :=
  match byte_at bs (e - 1) with
  | Some b => is_LF b
  | None => false
  end.

(** Modelled from the spec: a "line end" is "the byte offset immediately
    after the terminator (or EOF) of a given line".  The line that starts at
    [start] ends at [e] when it is not empty, holds no terminator before its
    last byte, and either that byte is the terminator or the file stops
    there. *)
Definition line_ends_at (bs : QByteArray) (start e : Z) : bool :=
  (start <? e) && (e <=? len bs) && no_LF (slice bs start (e - 1))
  && (ends_with_LF bs e || (e =? len bs)).

(** Modelled from the spec: "The first line starts at offset 0; line i
    (i >= 1) starts at line_ends[i-1]". *)
Fixpoint lines_ok (bs : QByteArray) (start : Z) (ends : list Z) : bool :=
  match ends with
  | [] => true
  | e :: rest => line_ends_at bs start e && lines_ok bs e rest
  end.

(** The indexing data describes the lines of these bytes. *)
Definition indexed (bs : QByteArray) (idx : IndexingData) : Prop :=
  lines_ok bs 0 (linePosition idx) = true.

(** [prev_end(i)] and [line_ends[i]] of the spec. *)
Definition prev_end (idx : IndexingData) (i : Z) : Z :=
  if i =? 0 then 0 else nth (Z.to_nat (i - 1)) (linePosition idx) 0.

Definition line_end (idx : IndexingData) (i : Z) : Z :=
  nth (Z.to_nat i) (linePosition idx) 0.

(** Modelled from the spec: the scan of the indexer, which lives outside
    the sources.  "For each \n encountered, record the byte position of the
    following byte as a line_ends entry"; "On EOF [...] append any trailing
    partial line as a line without a terminator (its end offset equals
    EOF)". *)
Fixpoint scan_lines (bs : QByteArray) (pos : Z) (partial : bool) : list Z :=
  match bs with
  | [] => if partial then [pos] else []
  | b :: rest =>
      if is_LF b then (pos + 1) :: scan_lines rest (pos + 1) false
      else scan_lines rest (pos + 1) true
  end.

(** The lines themselves, without terminators, to measure them. *)
Fixpoint split_lines (bs : QByteArray) (current : QByteArray) (partial : bool)
    : list QByteArray :=
  match bs with
  | [] => if partial then [current] else []
  | b :: rest =>
      if is_LF b then current :: split_lines rest [] false
      else split_lines rest (current ++ [b]) true
  end.

(** Modelled from the spec: "max_length == max over all i of
    display_length(line i)", in decoded code units after tab expansion. *)
Definition longest (codec : QTextCodec) (bs : QByteArray) : Z :=
  fold_right Z.max 0
    (map (fun l => Z.of_nat (length (untabify (toUnicode codec l))))
         (split_lines bs [] false)).

(** Modelled from the spec: the indexing data after a successful full
    index of [bs] with no forced encoding and the Latin-1 fallback. *)
Definition index_all (bs : QByteArray) : IndexingData := {|
  indexedSize := len bs;
  linePosition := scan_lines bs 0 false;
  maxLength := longest latin1 bs;
  forcedEncoding := None;
  encodingGuess := latin1;
|}.

(** ** Histories of a facade *)

Inductive Call :=
| Call_attachFile (fileName : string)
| Call_reload (forcedEncoding : option QTextCodec)
| Call_interruptLoading
| Call_fileChangedOnDisk (filename : string)
| Call_indexingFinished (status : LoadingStatus)
| Call_setDisplayEncoding (encoding : string)
| Call_getLineString (line : Z)
| Call_getExpandedLineString (line : Z)
| Call_getLines (first_line number : Z)
| Call_getExpandedLines (first_line number : Z)
| Call_getLineLength (line : Z).

Definition discard {A} (m : M A) : M unit := m ;; ret tt.

Definition perform {platform : Platform} (c : Call) : M unit :=
  match c with
  | Call_attachFile fileName => attachFile fileName
  | Call_reload forcedEncoding => reload forcedEncoding
  | Call_interruptLoading => interruptLoading
  | Call_fileChangedOnDisk filename => fileChangedOnDisk filename
  | Call_indexingFinished status => indexingFinished status
  | Call_setDisplayEncoding encoding => doSetDisplayEncoding encoding
  | Call_getLineString line => discard (doGetLineString line)
  | Call_getExpandedLineString line => discard (doGetExpandedLineString line)
  | Call_getLines first_line number => discard (doGetLines first_line number)
  | Call_getExpandedLines first_line number =>
      discard (doGetExpandedLines first_line number)
  | Call_getLineLength line => discard (doGetLineLength line)
  end.

Definition set_indexing_data_ (v : IndexingData) (d : LogData) : LogData :=
  {| indexing_data_ := v; attached_file_ := attached_file_ d;
     currentOperation_ := currentOperation_ d; nextOperation_ := nextOperation_ d;
     codec_ := codec_ d; fileChangedOnDisk_ := fileChangedOnDisk_ d;
     lastModifiedDate_ := lastModifiedDate_ d; workerThread_ := workerThread_ d |}.

Definition with_this (d : LogData) (w : World) : World :=
  {| this := d; disk := disk w; events := events w |}.

Definition with_contents (bs : QByteArray) (f : QFile) : QFile :=
  {| fileName := fileName f; openMode := openMode f;
     contents := bs; filePos := filePos f |}.

(** One thing that happens to a facade: a call that returns, a call that
    throws to a caller who catches, the worker thread publishing indexing
    data, the disk changing, the open file changing under the descriptor. *)
Inductive step {platform : Platform} : World -> World -> Prop :=
| step_returns c w w' :
    perform c w = Return tt w' -> step w w'
| step_throws c e w w' :
    perform c w = Throw e w' -> step w w'
| step_indexed idx w :
    step w (with_this (set_indexing_data_ idx (this w)) w)
| step_disk dsk w :
    step w {| this := this w; disk := dsk; events := events w |}
| step_file bs f w :
    attached_file_ (this w) = Some f ->
    step w (with_this (set_attached_file_ (Some (with_contents bs f)) (this w)) w).

Inductive later {platform : Platform} : World -> World -> Prop :=
| later_now w : later w w
| later_step w1 w2 w3 : later w1 w2 -> step w2 w3 -> later w1 w3.

(** ** The queue, seen from outside *)

(** The calls the worker thread receives when [op] is started. *)
Definition calls_of (op : LogDataOperation) : list WorkerCall :=
  match op with
  | AttachOperation filename_ => [W_attachFile filename_; W_indexAll None]
  | FullIndexOperation forcedEncoding_ => [W_indexAll forcedEncoding_]
  | PartialIndexOperation => [W_indexAdditionalLines]
  end.

(** [op] has been enqueued between [d] and [d']: started at once when
    nothing was running, parked in the pending slot otherwise. *)
Definition enqueued (op : LogDataOperation) (d d' : LogData) : Prop :=
  match currentOperation_ d with
  | None =>
      currentOperation_ d' = Some op /\
      nextOperation_ d' = nextOperation_ d /\
      workerThread_ d' = workerThread_ d ++ calls_of op
  | Some running =>
      currentOperation_ d' = Some running /\
      nextOperation_ d' = Some op /\
      workerThread_ d' = workerThread_ d
  end.

(** Nothing has been enqueued or started between [d] and [d']. *)
Definition queue_untouched (d d' : LogData) : Prop :=
  currentOperation_ d' = currentOperation_ d /\
  nextOperation_ d' = nextOperation_ d /\
  workerThread_ d' = workerThread_ d.

(** The line numbers [line], [line + 1], ... of a range of [count] lines. *)
Fixpoint lines_from (line : Z) (count : nat) : list Z :=
  match count with
  | O => []
  | S count' => line :: lines_from (line + 1) count'
  end.

(** The text of line [i] as the spec gives it: the bytes from [prev_end(i)]
    up to, not including, [line_ends[i] - 1], decoded. *)
Definition line_text (codec : QTextCodec) (bs : QByteArray)
    (idx : IndexingData) (i : Z) : QString :=
  toUnicode codec (slice bs (prev_end idx i) (line_end idx i - 1)).

(** ** What a member function keeps true *)

(** [m] keeps [P]: from a world where [P] holds, [m] returns or throws in a
    world where it holds. *)
Definition keeps (P : World -> Prop) {A} (m : M A) : Prop :=
  forall w, P w ->
    match m w with
    | Return _ w' => P w'
    | Throw _ w' => P w'
    | Crash _ => True
    end.

Definition is_attached (w : World) : Prop := attached_file_ (this w) <> None.

(** The world after one warning. *)
Definition warned (message : string) (w : World) : World :=
  {| this := this w; disk := disk w; events := events w ++ [LogWarning message] |}.

(** ** A concrete platform and concrete worlds, for examples *)

(** UTF-16LE (MIB 1014) in outline: two bytes a code unit, an odd last byte
    kept for the next call by a decoder and dropped by the stateless
    conversion; no byte order mark is looked for. *)
Fixpoint utf16le_units (bs : QByteArray) : QString * ConverterState :=
  match bs with
  | lo :: hi :: rest =>
      (latin1_char lo + 256 * latin1_char hi :: fst (utf16le_units rest),
       snd (utf16le_units rest))
  | [b] => ([], [b])
  | [] => ([], [])
  end.

Definition utf16le : QTextCodec := {|
  mibEnum := 1014;
  toUnicode := fun bs => fst (utf16le_units bs);
  decoderToUnicode := fun st bs => utf16le_units (st ++ bs);
|}.

(** 64-bit line numbers, two registered codecs, and the width of an encoded
    line feed as byte-width class. *)
Definition example_platform : Platform := {|
  line_bits := 64;
  codecForName := fun name =>
    if String.eqb name "ISO-8859-1" then Some latin1
    else if String.eqb name "UTF-16LE" then Some utf16le
    else None;
  EncParams := Z;
  EncodingParameters := fun c => if mibEnum c =? 1014 then 2 else 1;
  EncParams_eq_dec := Z.eq_dec;
|}.

Definition disk_of (name : string) (bs : QByteArray) (mtime : Z) : Disk :=
  fun n => if String.eqb n name then
             Some {| d_bytes := bs; d_lastModified := mtime |}
           else None.

(** A facade just created, in front of a disk that holds one file. *)
Definition fresh_world (name : string) (bs : QByteArray) : World := {|
  this := LogData_new (platform := example_platform) Unchanged;
  disk := disk_of name bs 1;
  events := [];
|}.

(** The same once [name] is attached, indexed and watched. *)
Definition indexed_world (name : string) (bs : QByteArray) : World := {|
  this := {|
    indexing_data_ := index_all bs;
    attached_file_ := Some (QFile_open (disk_of name bs 1) (QFile_new name));
    currentOperation_ := None;
    nextOperation_ := None;
    codec_ := Some latin1;
    fileChangedOnDisk_ := Unchanged;
    lastModifiedDate_ := Some 1;
    workerThread_ := [W_start; W_attachFile name; W_indexAll None];
  |};
  disk := disk_of name bs 1;
  events := [WatcherAddFile name; Emit_loadingFinished Successful];
|}.

(** The same while the attach operation is still running. *)
Definition attaching_world (name : string) (bs : QByteArray) : World := {|
  this := set_currentOperation_ (Some (AttachOperation name))
            (this (indexed_world name bs));
  disk := disk_of name bs 1;
  events := [];
|}.

(** The same facade in front of another disk. *)
Definition on_disk (dsk : Disk) (w : World) : World :=
  {| this := this w; disk := dsk; events := events w |}.

(** The same facade with other indexing data. *)
Definition with_index (idx : IndexingData) (w : World) : World :=
  with_this (set_indexing_data_ idx (this w)) w.

(** Indexing data that holds these line ends, for a Latin-1 file. *)
Definition index_with (size : Z) (ends : list Z) : IndexingData := {|
  indexedSize := size;
  linePosition := ends;
  maxLength := 0;
  forcedEncoding := None;
  encodingGuess := latin1;
|}.

Definition one_two : QByteArray := bytes_of ("one" ++ nl ++ "two").
Definition alpha_beta_gamma : QByteArray :=
  bytes_of ("alpha" ++ nl ++ "beta" ++ nl ++ "gamma" ++ nl).
Definition c_tab : QByteArray := bytes_of ("c" ++ tab).

(** ** Notions for what the facade keeps *)

(** Several operations enqueued one after the other. *)
Fixpoint enqueue_all (ops : list LogDataOperation) : M unit :=
  match ops with
  | [] => ret tt
  | op :: rest => enqueueOperation op ;; enqueue_all rest
  end.

(** An operation is pending only while another is running. *)
Definition queue_ok (d : LogData) : Prop :=
  nextOperation_ d <> None -> currentOperation_ d <> None.

(** How many times the file mutex is held after these events. *)
Fixpoint mutex_depth (evs : list Event) : Z :=
  match evs with
  | [] => 0
  | MutexLock :: rest => mutex_depth rest + 1
  | MutexUnlock :: rest => mutex_depth rest - 1
  | _ :: rest => mutex_depth rest
  end.

(** Two views of the same open or closed file, whatever the read
    position. *)
Definition same_source (f f' : QFile) : Prop :=
  fileName f' = fileName f /\ openMode f' = openMode f /\ contents f' = contents f.

(** Between [d] and [d'] nothing has changed but, possibly, the read
    position of the source. *)
Definition only_position_moved (d d' : LogData) : Prop :=
  indexing_data_ d' = indexing_data_ d /\
  currentOperation_ d' = currentOperation_ d /\
  nextOperation_ d' = nextOperation_ d /\
  codec_ d' = codec_ d /\
  fileChangedOnDisk_ d' = fileChangedOnDisk_ d /\
  lastModifiedDate_ d' = lastModifiedDate_ d /\
  workerThread_ d' = workerThread_ d /\
  match attached_file_ d, attached_file_ d' with
  | Some f, Some f' => same_source f f'
  | None, None => True
  | _, _ => False
  end.

(** The same between two worlds: the facade apart from the read position,
    the disk, and how many times the file mutex is held. *)
Definition read_only (w w' : World) : Prop :=
  only_position_moved (this w) (this w') /\
  disk w' = disk w /\
  mutex_depth (events w') = mutex_depth (events w).

(** [Q] holds of the world in which a call returned, if it returned. *)
Definition when_returned {A} (o : Outcome A) (Q : World -> Prop) : Prop :=
  match o with
  | Return _ w' => Q w'
  | Throw _ _ => True
  | Crash _ => True
  end.

(** What a call returned, if it returned. *)
Definition value {A} (o : Outcome A) : option A :=
  match o with
  | Return a _ => Some a
  | Throw _ _ => None
  | Crash _ => None
  end.

(** No line end of the index is negative. *)
Definition offsets_ok (idx : IndexingData) : Prop :=
  Forall (fun e => 0 <= e) (linePosition idx).

(** What every call carries on from the world it starts in to the world it
    returns, or throws, in: a queue in order stays in order, the file mutex
    is held as many times as before, and a source that was attached is
    still attached, under the same name. *)
Definition carried_on (w w' : World) : Prop :=
  (queue_ok (this w) -> queue_ok (this w')) /\
  mutex_depth (events w') = mutex_depth (events w) /\
  (forall f, attached_file_ (this w) = Some f ->
             exists f', attached_file_ (this w') = Some f' /\
                        fileName f' = fileName f).

(** The example facade after its source was swapped for one that could not
    be opened, the index still that of the file. *)
Definition closed_world (name : string) (bs : QByteArray) : World :=
  with_this (set_attached_file_ (Some (QFile_new name))
                                (this (indexed_world name bs)))
            (indexed_world name bs).

(** The world in which a call returned, or the one it started in. *)
Definition world_after {A} (m : M A) (w : World) : World :=
  match m w with
  | Return _ w' => w'
  | Throw _ _ => w
  | Crash _ => w
  end.

(** * Properties *)

(** ** Running member functions *)

Ltac open_world w :=
  let d := fresh "d" in
  destruct w as [d ? ?]; destruct d; cbn in *.

Ltac run :=
  cbv [bind ret get update getDisk emit throw crash call_worker attached
       the_codec posForLine file_seek file_readLine file_read lift_fault
       discard with_this];
  cbn.

Lemma doStart_calls (op : LogDataOperation) (w : World) :
  doStart op w
  = Return tt (with_this (set_workerThread_ (workerThread_ (this w) ++ calls_of op)
                                            (this w)) w).
Proof.
  destruct op; open_world w; run; try reflexivity.
  rewrite <- app_assoc. reflexivity.
Qed.

Lemma enqueueOperation_idle (op : LogDataOperation) (w : World) :
  currentOperation_ (this w) = None ->
  enqueueOperation op w
  = Return tt (with_this (set_workerThread_ (workerThread_ (this w) ++ calls_of op)
                            (set_currentOperation_ (Some op) (this w))) w).
Proof.
  intros H. open_world w. subst. unfold enqueueOperation, startOperation. run.
  rewrite doStart_calls. reflexivity.
Qed.

Lemma enqueueOperation_busy (op running : LogDataOperation) (w : World) :
  currentOperation_ (this w) = Some running ->
  enqueueOperation op w
  = Return tt (with_this (set_nextOperation_ (Some op) (this w)) w).
Proof.
  intros H. open_world w. subst. unfold enqueueOperation. run. reflexivity.
Qed.

Lemma enqueueOperation_enqueued (op : LogDataOperation) (w : World) :
  exists w', enqueueOperation op w = Return tt w' /\
             enqueued op (this w) (this w') /\
             disk w' = disk w /\ events w' = events w /\
             attached_file_ (this w') = attached_file_ (this w) /\
             fileChangedOnDisk_ (this w') = fileChangedOnDisk_ (this w) /\
             lastModifiedDate_ (this w') = lastModifiedDate_ (this w) /\
             codec_ (this w') = codec_ (this w) /\
             indexing_data_ (this w') = indexing_data_ (this w).
Proof.
  destruct (currentOperation_ (this w)) as [running|] eqn:E.
  - rewrite (enqueueOperation_busy op running w E). eexists; split; [reflexivity|].
    unfold enqueued. rewrite E. open_world w. subst. repeat split; reflexivity.
  - rewrite (enqueueOperation_idle op w E). eexists; split; [reflexivity|].
    unfold enqueued. rewrite E. open_world w. subst. repeat split; reflexivity.
Qed.

Section Properties.

Context {platform : Platform}.

Lemma wrap_line_nonneg (z : Z) : 0 <= wrap_line z.
Proof.
  unfold wrap_line. apply Z.mod_pos_bound. apply Z.pow_pos_nonneg; lia.
Qed.

Lemma wrap_line_small (z : Z) :
  0 <= z < 2 ^ Z.of_N line_bits -> wrap_line z = z.
Proof. intros H. unfold wrap_line. apply Z.mod_small. exact H. Qed.

(** ** Reads that touch nothing *)

(** C10.  For every first line, [doGetLines] and [doGetExpandedLines] asked
    for zero lines return the empty sequence and leave the world as it was:
    no seek, no read, no warning.  The test of the count comes before the
    test of the bound, so this holds as well where the bound test would
    fire (line 0 with count 0 has the last line wrap to the largest line
    number). *)
Theorem zero_count_reads_nothing (w : World) (first_line : Z) :
  doGetLines first_line 0 w = Return [] w /\
  doGetExpandedLines first_line 0 w = Return [] w.
Proof.
  split; unfold doGetLines, doGetExpandedLines; run; reflexivity.
Qed.

Lemma doGetLineString_beyond (w : World) (n : Z) :
  getNbLines (indexing_data_ (this w)) <= n ->
  doGetLineString n w = Return [] w.
Proof.
  intros H. unfold doGetLineString. run.
  destruct (Z.leb_spec (getNbLines (indexing_data_ (this w))) n); [reflexivity | lia].
Qed.

Lemma doGetExpandedLineString_beyond (w : World) (n : Z) :
  getNbLines (indexing_data_ (this w)) <= n ->
  doGetExpandedLineString n w = Return [] w.
Proof.
  intros H. unfold doGetExpandedLineString. run.
  destruct (Z.leb_spec (getNbLines (indexing_data_ (this w))) n); [reflexivity | lia].
Qed.

Lemma doGetLineLength_beyond (w : World) (n : Z) :
  getNbLines (indexing_data_ (this w)) <= n ->
  doGetLineLength n w = Return 0 w.
Proof.
  intros H. unfold doGetLineLength. run.
  destruct (Z.leb_spec (getNbLines (indexing_data_ (this w))) n); [reflexivity | lia].
Qed.

Lemma doGetLines_beyond (w : World) (first_line number : Z) :
  getNbLines (indexing_data_ (this w)) <= last_line_of first_line number ->
  doGetLines first_line number w
  = Return [] (if number =? 0 then w
               else warned "LogData::doGetLines Lines out of bound asked for" w).
Proof.
  intros H. unfold doGetLines. run.
  destruct (number =? 0); [reflexivity|].
  destruct (Z.leb_spec (getNbLines (indexing_data_ (this w)))
                       (last_line_of first_line number)); [reflexivity | lia].
Qed.

Lemma doGetExpandedLines_beyond (w : World) (first_line number : Z) :
  getNbLines (indexing_data_ (this w)) <= last_line_of first_line number ->
  doGetExpandedLines first_line number w
  = Return [] (if number =? 0 then w
               else warned "LogData::doGetExpandedLines Lines out of bound asked for" w).
Proof.
  intros H. unfold doGetExpandedLines. run.
  destruct (number =? 0); [reflexivity|].
  destruct (Z.leb_spec (getNbLines (indexing_data_ (this w)))
                       (last_line_of first_line number)); [reflexivity | lia].
Qed.

(** C7.  A line number at or beyond [nb_lines] reads as the empty string,
    plain or expanded, and the world is left as it was.  A range whose last
    line (as [doGetLines] computes it, [first_line + number - 1] on line
    numbers) is at or beyond [nb_lines] reads as the empty sequence, with a
    warning logged unless the count is zero.  On a facade with no file
    attached, whose indexing data is still empty, every line access returns
    empty or zero: the number of lines, the longest length, the length of a
    line, a line, a range. *)
Theorem reads_beyond_the_index_are_empty
    (w : World) (n first_line number : Z)
    (w0 : World) (n0 first0 number0 : Z) :
  getNbLines (indexing_data_ (this w)) <= n ->
  getNbLines (indexing_data_ (this w)) <= last_line_of first_line number ->
  attached_file_ (this w0) = None ->
  indexing_data_ (this w0) = IndexingData_empty ->
  0 <= n0 ->
  (doGetLineString n w = Return [] w /\
   doGetExpandedLineString n w = Return [] w /\
   doGetLines first_line number w
   = Return [] (if number =? 0 then w
                else warned "LogData::doGetLines Lines out of bound asked for" w) /\
   doGetExpandedLines first_line number w
   = Return [] (if number =? 0 then w
                else warned "LogData::doGetExpandedLines Lines out of bound asked for" w))
  /\
  (doGetNbLine w0 = Return 0 w0 /\
   doGetMaxLength w0 = Return 0 w0 /\
   doGetLineLength n0 w0 = Return 0 w0 /\
   doGetLineString n0 w0 = Return [] w0 /\
   doGetExpandedLineString n0 w0 = Return [] w0 /\
   doGetLines first0 number0 w0
   = Return [] (if number0 =? 0 then w0
                else warned "LogData::doGetLines Lines out of bound asked for" w0) /\
   doGetExpandedLines first0 number0 w0
   = Return [] (if number0 =? 0 then w0
                else warned "LogData::doGetExpandedLines Lines out of bound asked for" w0)).
Proof.
  intros Hn Hrange Hnull Hempty Hn0.
  assert (Hnb : getNbLines (indexing_data_ (this w0)) = 0)
    by (rewrite Hempty; reflexivity).
  split.
  - repeat split.
    + apply doGetLineString_beyond; assumption.
    + apply doGetExpandedLineString_beyond; assumption.
    + apply doGetLines_beyond; assumption.
    + apply doGetExpandedLines_beyond; assumption.
  - repeat split.
    + unfold doGetNbLine. run. rewrite Hnb. reflexivity.
    + unfold doGetMaxLength. run. rewrite Hempty. reflexivity.
    + apply doGetLineLength_beyond; lia.
    + apply doGetLineString_beyond; lia.
    + apply doGetExpandedLineString_beyond; lia.
    + apply doGetLines_beyond. rewrite Hnb. apply wrap_line_nonneg.
    + apply doGetExpandedLines_beyond. rewrite Hnb. apply wrap_line_nonneg.
Qed.

(** ** The end of an indexing operation *)

Lemma lastModified_when_exists (dsk : Disk) (name : string) :
  (if QFileInfo_exists dsk name then QFileInfo_lastModified dsk name else None)
  = QFileInfo_lastModified dsk name.
Proof.
  unfold QFileInfo_exists, QFileInfo_lastModified. destruct (dsk name); reflexivity.
Qed.

Lemma indexingFinished_result (status : LoadingStatus) (w : World)
    (running : LogDataOperation) (f : QFile) :
  currentOperation_ (this w) = Some running ->
  attached_file_ (this w) = Some f ->
  exists w',
    indexingFinished status w = Return tt w' /\
    fileChangedOnDisk_ (this w') = Unchanged /\
    currentOperation_ (this w') = nextOperation_ (this w) /\
    nextOperation_ (this w') = None /\
    workerThread_ (this w')
    = workerThread_ (this w)
      ++ match nextOperation_ (this w) with
         | Some promoted => calls_of promoted
         | None => []
         end /\
    lastModifiedDate_ (this w')
    = (if LoadingStatus_eqb status Successful
       then QFileInfo_lastModified (disk w) (fileName f)
       else lastModifiedDate_ (this w)) /\
    events w'
    = events w
      ++ (if LoadingStatus_eqb status Successful
          then [WatcherAddFile (fileName f)] else [])
      ++ [Emit_loadingFinished status] /\
    attached_file_ (this w') = attached_file_ (this w) /\
    indexing_data_ (this w') = indexing_data_ (this w) /\
    codec_ (this w') = codec_ (this w) /\
    disk w' = disk w.
Proof.
  intros Hcur Hfile. open_world w. subst.
  unfold indexingFinished, startOperation.
  destruct status; run.
  - pose proof (lastModified_when_exists disk0 (fileName f)) as Hlm.
    unfold QFileInfo_exists in *.
    destruct (disk0 (fileName f)) eqn:Hd; cbn;
      destruct nextOperation_0 as [promoted|]; cbn;
      try rewrite doStart_calls; cbn;
      eexists; (split; [reflexivity|]); cbn;
      rewrite <- ?app_assoc, ?app_nil_r; cbn;
      unfold QFileInfo_lastModified; rewrite ?Hd;
      repeat split; reflexivity.
  - destruct nextOperation_0 as [promoted|]; cbn;
      try rewrite doStart_calls; cbn;
      eexists; (split; [reflexivity|]); cbn;
      rewrite ?app_nil_r; repeat split; reflexivity.
  - destruct nextOperation_0 as [promoted|]; cbn;
      try rewrite doStart_calls; cbn;
      eexists; (split; [reflexivity|]); cbn;
      rewrite ?app_nil_r; repeat split; reflexivity.
Qed.

(** C9.  When an indexing operation finishes, whatever the status, the
    file-change state is [Unchanged] afterwards.  Only for [Successful] is
    the file handed to the watcher and the modification date refreshed from
    the disk; for [Interrupted] and [NoMemory] the only event is the
    [loadingFinished] signal and the date stays. *)
Theorem indexing_finished_resets_change_state
    (status : LoadingStatus) (w : World) (running : LogDataOperation) (f : QFile) :
  currentOperation_ (this w) = Some running ->
  attached_file_ (this w) = Some f ->
  exists w',
    indexingFinished status w = Return tt w' /\
    fileChangedOnDisk_ (this w') = Unchanged /\
    (status = Successful ->
       events w' = events w ++ [WatcherAddFile (fileName f);
                                Emit_loadingFinished Successful] /\
       lastModifiedDate_ (this w') = QFileInfo_lastModified (disk w) (fileName f)) /\
    (status <> Successful ->
       events w' = events w ++ [Emit_loadingFinished status] /\
       lastModifiedDate_ (this w') = lastModifiedDate_ (this w)).
Proof.
  intros Hcur Hfile.
  destruct (indexingFinished_result status w running f Hcur Hfile)
    as (w' & Hrun & Hfc & _ & _ & _ & Hlm & Hev & _).
  exists w'. repeat split; try assumption.
  - subst status. exact Hev.
  - subst status. exact Hlm.
  - destruct status; [congruence | exact Hev | exact Hev].
  - destruct status; [congruence | exact Hlm | exact Hlm].
Qed.

(** ** The operation queue *)

(** C5.  There is one pending slot.  On an idle facade an enqueued operation
    becomes the current one and is started at once (the worker receives its
    calls) while the pending slot is untouched.  On a busy facade it is
    written to the pending slot and nothing is started; a second enqueue
    overwrites the first.  When the current operation finishes, the pending
    operation becomes current, the pending slot is emptied, and the promoted
    operation, if there is one, is started. *)
Theorem queue_keeps_one_pending
    (idle busy : World) (op op' running : LogDataOperation)
    (status : LoadingStatus) (f : QFile) :
  currentOperation_ (this idle) = None ->
  currentOperation_ (this busy) = Some running ->
  attached_file_ (this busy) = Some f ->
  enqueueOperation op idle
  = Return tt (with_this (set_workerThread_ (workerThread_ (this idle) ++ calls_of op)
                            (set_currentOperation_ (Some op) (this idle))) idle)
  /\
  enqueueOperation op busy
  = Return tt (with_this (set_nextOperation_ (Some op) (this busy)) busy)
  /\
  (enqueueOperation op ;; enqueueOperation op') busy
  = Return tt (with_this (set_nextOperation_ (Some op') (this busy)) busy)
  /\
  exists done,
    indexingFinished status busy = Return tt done /\
    currentOperation_ (this done) = nextOperation_ (this busy) /\
    nextOperation_ (this done) = None /\
    workerThread_ (this done)
    = workerThread_ (this busy)
      ++ match nextOperation_ (this busy) with
         | Some promoted => calls_of promoted
         | None => []
         end.
Proof.
  intros Hidle Hbusy Hfile. repeat split.
  - apply enqueueOperation_idle. exact Hidle.
  - apply (enqueueOperation_busy op running). exact Hbusy.
  - unfold bind. rewrite (enqueueOperation_busy op running busy Hbusy).
    rewrite (enqueueOperation_busy op' running).
    + open_world busy. reflexivity.
    + open_world busy. exact Hbusy.
  - destruct (indexingFinished_result status busy running f Hbusy Hfile)
      as (done & Hrun & _ & Hcur & Hnext & Hcalls & _).
    exists done. repeat split; assumption.
Qed.

(** ** The file-change slot *)

#[local] Opaque Z.eqb Z.ltb Z.leb.

Lemma bind_Return {A B} (m : M A) (k : A -> M B) (w w' : World) (a : A) :
  m w = Return a w' -> bind m k w = k a w'.
Proof. intros H. unfold bind. rewrite H. reflexivity. Qed.

Lemma attached_Some (w : World) (f : QFile) :
  attached_file_ (this w) = Some f -> attached w = Return f w.
Proof. intros H. unfold attached. run. rewrite H. reflexivity. Qed.

Lemma reOpenFile_result (w : World) (f : QFile) :
  attached_file_ (this w) = Some f ->
  reOpenFile w
  = Return tt {| this := set_attached_file_
                           (Some (QFile_open (disk w) (QFile_new (fileName f))))
                           (this w);
                 disk := disk w;
                 events := events w ++ [MutexLock; MutexUnlock] |}.
Proof.
  intros H. unfold reOpenFile. run. rewrite H. cbn.
  rewrite <- app_assoc. reflexivity.
Qed.

Lemma QFile_size_reopened (dsk : Disk) (name : string) :
  QFile_size dsk (QFile_open dsk (QFile_new name)) = QFileInfo_size dsk name.
Proof.
  unfold QFile_size, QFile_open, QFileInfo_size, QFile_new. cbn.
  destruct (dsk name) eqn:E; cbn; [reflexivity|]. rewrite E. reflexivity.
Qed.

(** The first step of the slot: the source is reopened when its size is not
    the one on disk or when it is closed; either way the size of the source
    is afterwards the size on disk. *)
Lemma reopen_when_inconsistent (w : World) (f : QFile) :
  attached_file_ (this w) = Some f ->
  exists w1 f1,
    (if negb (QFileInfo_size (disk w) (fileName f) =? QFile_size (disk w) f)
        || match openMode f with NotOpen => true | ReadOnly => false end
     then reOpenFile else ret tt) w = Return tt w1 /\
    attached_file_ (this w1) = Some f1 /\
    QFile_size (disk w) f1 = QFileInfo_size (disk w) (fileName f) /\
    this w1 = set_attached_file_ (Some f1) (this w) /\
    disk w1 = disk w.
Proof.
  intros H.
  destruct (negb (QFileInfo_size (disk w) (fileName f) =? QFile_size (disk w) f)
            || match openMode f with NotOpen => true | ReadOnly => false end) eqn:E.
  - rewrite (reOpenFile_result w f H). do 2 eexists.
    split; [reflexivity|]. cbn. repeat split. apply QFile_size_reopened.
  - exists w, f. apply orb_false_elim in E. destruct E as [E1 E2].
    apply negb_false_iff in E1. apply Z.eqb_eq in E1.
    repeat split; try assumption; try congruence.
    open_world w. subst. reflexivity.
Qed.

(** C4.  On a file-change notification, with [S_indexed] the indexed size
    and [S_now] the size found under the name of the source when it is
    looked at again: if [S_now < S_indexed] the state becomes [Truncated] and
    a full index with no forced encoding is enqueued; if they are equal the
    state and the queue are as before; if [S_now > S_indexed] and the state
    was not [DataAdded] it becomes [DataAdded] and a partial index is
    enqueued; if it was [DataAdded] already, the state and the queue are as
    before. *)
Theorem file_change_decides_reindex (w : World) (f : QFile) (filename : string) :
  attached_file_ (this w) = Some f ->
  let S_indexed := getSize (indexing_data_ (this w)) in
  let S_now := QFileInfo_size (disk w) (fileName f) in
  exists w',
    fileChangedOnDisk filename w = Return tt w' /\
    (S_now < S_indexed ->
       fileChangedOnDisk_ (this w') = Truncated /\
       enqueued (FullIndexOperation None) (this w) (this w')) /\
    (S_now = S_indexed ->
       fileChangedOnDisk_ (this w') = fileChangedOnDisk_ (this w) /\
       queue_untouched (this w) (this w')) /\
    (S_now > S_indexed -> fileChangedOnDisk_ (this w) <> DataAdded ->
       fileChangedOnDisk_ (this w') = DataAdded /\
       enqueued PartialIndexOperation (this w) (this w')) /\
    (S_now > S_indexed -> fileChangedOnDisk_ (this w) = DataAdded ->
       fileChangedOnDisk_ (this w') = DataAdded /\
       queue_untouched (this w) (this w')).
Proof.
  intros Hfile S_indexed S_now. subst S_indexed S_now.
  destruct (reopen_when_inconsistent w f Hfile)
    as (w1 & f1 & Hstep & Hfile1 & Hsize & Hthis & Hdisk).
  unfold fileChangedOnDisk.
  rewrite (bind_Return _ _ _ _ _ (attached_Some w f Hfile)).
  rewrite (bind_Return getDisk _ w w (disk w) eq_refl).
  rewrite (bind_Return get _ w w (this w) eq_refl).
  rewrite (bind_Return _ _ _ _ _ Hstep).
  rewrite (bind_Return _ _ _ _ _ (attached_Some w1 f1 Hfile1)).
  rewrite Hsize. unfold getSize. clear Hstep Hsize.
  remember (QFileInfo_size (disk w) (fileName f)) as S_now eqn:HS.
  remember (indexedSize (indexing_data_ (this w))) as S_indexed eqn:HI.
  remember (QFileInfo_lastModified (disk w) (fileName f)) as modified eqn:HM.
  clear HS HI HM.
  destruct w1 as [d1 dsk1 evs1]; cbn in Hthis, Hdisk, Hfile1. subst d1 dsk1.
  open_world w. subst.
  unfold enqueueOperation, startOperation. run.
  destruct (Z.ltb_spec S_now S_indexed), (Z.eqb_spec S_now S_indexed),
    fileChangedOnDisk_0, currentOperation_0; cbn;
    try rewrite doStart_calls; cbn;
    (eexists; split; [reflexivity|]);
    unfold enqueued, queue_untouched; cbn;
    repeat split; intros; try lia; try congruence.
Qed.

#[local] Transparent Z.eqb Z.ltb Z.leb.

(** ** The display encoding *)

Lemma reload_result (w : World) (f : QFile) (forced : option QTextCodec) :
  attached_file_ (this w) = Some f ->
  exists w',
    reload forced w = Return tt w' /\
    enqueued (FullIndexOperation forced)
             (set_workerThread_ (workerThread_ (this w) ++ [W_interrupt]) (this w))
             (this w') /\
    attached_file_ (this w')
    = Some (QFile_open (disk w) (QFile_new (fileName f))) /\
    codec_ (this w') = codec_ (this w) /\
    fileChangedOnDisk_ (this w') = fileChangedOnDisk_ (this w) /\
    indexing_data_ (this w') = indexing_data_ (this w) /\
    events w' = events w ++ [MutexLock; MutexUnlock] /\
    disk w' = disk w.
Proof.
  intros Hfile. unfold reload.
  set (w1 := with_this (set_workerThread_ (workerThread_ (this w) ++ [W_interrupt])
                                          (this w)) w).
  assert (H1 : call_worker W_interrupt w = Return tt w1) by reflexivity.
  rewrite (bind_Return _ _ _ _ _ H1).
  assert (Hfile1 : attached_file_ (this w1) = Some f)
    by (open_world w; exact Hfile).
  rewrite (bind_Return _ _ _ _ _ (reOpenFile_result w1 f Hfile1)).
  match goal with |- context [enqueueOperation ?op ?w2] =>
    destruct (enqueueOperation_enqueued op w2)
      as (w' & Hrun & Henq & Hd & Hev & Hf & Hfc & _ & Hc & Hidx)
  end.
  exists w'. split; [exact Hrun|].
  unfold enqueued in *. open_world w. subst w1. cbn in *.
  repeat split; assumption.
Qed.

(** C8.  [doSetDisplayEncoding] makes the requested codec the one that
    decodes from then on.  With the index encoding being the forced encoding
    when there is one and the guessed one otherwise: if the byte-width class
    of the requested codec differs from that of the index encoding, the file
    is reloaded (the worker is interrupted, the source reopened, a full
    index enqueued), with the requested codec forced, or with none forced
    when the requested codec is the guessed one; if the class is the same,
    only the codec changes and nothing is enqueued.  Qt gives one codec per
    MIB, so codecs of equal MIB have equal class: the third hypothesis. *)
Theorem display_encoding_reloads_on_class_change
    (w : World) (encoding : string) (codec : QTextCodec) (f : QFile) :
  codecForName encoding = Some codec ->
  attached_file_ (this w) = Some f ->
  let idx := indexing_data_ (this w) in
  let index_codec :=
    match getForcedEncoding idx with
    | Some forced => forced
    | None => getEncodingGuess idx
    end in
  (mibEnum codec = mibEnum index_codec ->
   EncodingParameters codec = EncodingParameters index_codec) ->
  exists w',
    doSetDisplayEncoding encoding w = Return tt w' /\
    codec_ (this w') = Some codec /\
    (EncodingParameters codec <> EncodingParameters index_codec ->
       let forced :=
         if mibEnum codec =? mibEnum (getEncodingGuess idx)
         then None else Some codec in
       reload forced (with_this (set_codec_ (Some codec) (this w)) w)
       = Return tt w' /\
       enqueued (FullIndexOperation forced)
                (set_workerThread_ (workerThread_ (this w) ++ [W_interrupt]) (this w))
                (this w')) /\
    (EncodingParameters codec = EncodingParameters index_codec ->
       w' = with_this (set_codec_ (Some codec) (this w)) w).
Proof.
  intros Hname Hfile idx index_codec Hqt.
  set (w1 := with_this (set_codec_ (Some codec) (this w)) w).
  assert (Hfile1 : attached_file_ (this w1) = Some f)
    by (open_world w; exact Hfile).
  unfold doSetDisplayEncoding.
  assert (H1 : update (set_codec_ (codecForName encoding)) w = Return tt w1)
    by (rewrite Hname; reflexivity).
  rewrite (bind_Return _ _ _ _ _ H1).
  rewrite (bind_Return get _ w1 w1 (this w1) eq_refl).
  assert (H2 : the_codec w1 = Return codec w1) by reflexivity.
  rewrite (bind_Return _ _ _ _ _ H2).
  assert (Hidx : indexing_data_ (this w1) = idx) by reflexivity.
  rewrite Hidx. fold index_codec.
  destruct (EncParams_eq_dec (EncodingParameters codec)
                             (EncodingParameters index_codec)) as [Hsame | Hdiff].
  - exists w1. split.
    + destruct (negb (mibEnum codec =? mibEnum index_codec)); reflexivity.
    + split; [reflexivity|]. split; [intros; contradiction | intros; reflexivity].
  - assert (Hmib : (mibEnum codec =? mibEnum index_codec) = false).
    { apply Z.eqb_neq. intros E. apply Hdiff, Hqt, E. }
    rewrite Hmib. cbn [negb].
    destruct (reload_result w1 f
                (if mibEnum codec =? mibEnum (getEncodingGuess idx)
                 then None else Some codec) Hfile1)
      as (w' & Hrun & Henq & _ & Hc & _).
    exists w'. split; [exact Hrun|]. split; [rewrite Hc; reflexivity|].
    split; [| intros; contradiction].
    intros _. cbv zeta. split; [exact Hrun|].
    unfold enqueued in *. open_world w. exact Henq.
Qed.

(** ** Attaching *)

Lemma keeps_ret (P : World -> Prop) {A} (a : A) : keeps P (ret a).
Proof. intros w H. exact H. Qed.

Lemma keeps_bind (P : World -> Prop) {A B} (m : M A) (k : A -> M B) :
  keeps P m -> (forall a, keeps P (k a)) -> keeps P (bind m k).
Proof.
  intros Hm Hk w H. unfold bind. specialize (Hm w H).
  destruct (m w) as [a w' | e w' | fault]; [apply Hk; exact Hm | exact Hm | exact I].
Qed.

Lemma keeps_crash (P : World -> Prop) {A} (fault : Fault) : keeps P (@crash A fault).
Proof. intros w H. exact I. Qed.

Lemma keeps_throw (P : World -> Prop) {A} (e : Exception) : keeps P (@throw A e).
Proof. intros w H. exact H. Qed.

Lemma keeps_get (P : World -> Prop) : keeps P get.
Proof. intros w H. exact H. Qed.

Lemma keeps_getDisk (P : World -> Prop) : keeps P getDisk.
Proof. intros w H. exact H. Qed.

Lemma attached_emit (e : Event) : keeps is_attached (emit e).
Proof. intros w H. exact H. Qed.

Lemma attached_update (g : LogData -> LogData) :
  (forall d, attached_file_ d <> None -> attached_file_ (g d) <> None) ->
  keeps is_attached (update g).
Proof. intros Hg w H. apply Hg. exact H. Qed.

Lemma attached_lift_fault {A} (r : Fault + A) : keeps is_attached (lift_fault r).
Proof. destruct r; [apply keeps_crash | apply keeps_ret]. Qed.

Ltac keeps_step :=
  lazymatch goal with
  | |- keeps _ (bind _ _) => apply keeps_bind; [| intros ?]
  | |- keeps _ (ret _) => apply keeps_ret
  | |- keeps _ (crash _) => apply keeps_crash
  | |- keeps _ (throw _) => apply keeps_throw
  | |- keeps _ get => apply keeps_get
  | |- keeps _ getDisk => apply keeps_getDisk
  | |- keeps _ (emit _) => apply attached_emit
  | |- keeps _ (lift_fault _) => apply attached_lift_fault
  | |- keeps _ (update _) =>
      apply attached_update; intros ? ?; cbn; solve [assumption | discriminate]
  | |- keeps _ (match ?x with _ => _ end) => destruct x
  end.

Ltac keeps_all := repeat keeps_step.

Lemma attached_doStart (op : LogDataOperation) : keeps is_attached (doStart op).
Proof. destruct op; unfold doStart, call_worker; keeps_all. Qed.

Lemma attached_enqueueOperation (op : LogDataOperation) :
  keeps is_attached (enqueueOperation op).
Proof.
  unfold enqueueOperation, startOperation; keeps_all; apply attached_doStart.
Qed.

Lemma attached_reOpenFile : keeps is_attached reOpenFile.
Proof. unfold reOpenFile, attached; keeps_all. Qed.

Lemma attached_reload (forced : option QTextCodec) : keeps is_attached (reload forced).
Proof.
  unfold reload, call_worker; keeps_all;
    [apply attached_reOpenFile | apply attached_enqueueOperation].
Qed.

Lemma attached_perform (c : Call) : keeps is_attached (perform c).
Proof.
  destruct c; cbn [perform].
  - unfold attachFile; keeps_all. apply attached_enqueueOperation.
  - apply attached_reload.
  - unfold interruptLoading, call_worker; keeps_all.
  - unfold fileChangedOnDisk, attached; keeps_all;
      try apply attached_reOpenFile; try apply attached_enqueueOperation.
  - unfold indexingFinished, startOperation, attached; keeps_all;
      apply attached_doStart.
  - unfold doSetDisplayEncoding, the_codec; keeps_all; apply attached_reload.
  - unfold discard, doGetLineString, start_of_line, posForLine, file_seek,
      file_readLine, the_codec, attached; keeps_all.
  - unfold discard, doGetExpandedLineString, start_of_line, posForLine, file_seek,
      file_readLine, the_codec, attached; keeps_all.
  - unfold discard, doGetLines, start_of_line, posForLine, file_seek,
      file_read, the_codec, attached; keeps_all.
  - unfold discard, doGetExpandedLines, start_of_line, posForLine, file_seek,
      file_read, the_codec, attached; keeps_all.
  - unfold discard, doGetLineLength, doGetExpandedLineString, start_of_line,
      posForLine, file_seek, file_readLine, the_codec, attached; keeps_all.
Qed.

Lemma attached_step (w w' : World) : step w w' -> is_attached w -> is_attached w'.
Proof.
  intros Hstep H. destruct Hstep as [c w w' Hrun | c e w w' Hrun | idx w | dsk w | bs f w Hf].
  - pose proof (attached_perform c w H) as K. rewrite Hrun in K. exact K.
  - pose proof (attached_perform c w H) as K. rewrite Hrun in K. exact K.
  - exact H.
  - exact H.
  - unfold is_attached. cbn. discriminate.
Qed.

Lemma attached_later (w w' : World) : later w w' -> is_attached w -> is_attached w'.
Proof.
  intros Hlater H. induction Hlater as [w | w1 w2 w3 _ IH Hstep].
  - exact H.
  - apply (attached_step w2 w3 Hstep). apply IH. exact H.
Qed.

Lemma attachFile_again (w : World) (name : string) :
  is_attached w -> attachFile name w = Throw CantReattachErr w.
Proof.
  intros H. unfold is_attached in H. unfold attachFile. run.
  destruct (attached_file_ (this w)); [reflexivity | contradiction].
Qed.

(** C6.  On a facade with no file attached, [attachFile] opens the file
    under the given name (the source is then attached, open if the file
    exists) and enqueues an attach operation for it.  On a facade with a
    file attached it throws [CantReattachErr] and leaves the world, hence
    the source and the queue, as they were.  A file once attached stays
    attached through every later call, exception and outside change, so
    every later [attachFile] throws: attaching succeeds at most once. *)
Theorem attach_succeeds_once
    (empty : World) (name other : string)
    (full : World) (f : QFile) (afterwards : World) :
  attached_file_ (this empty) = None ->
  attached_file_ (this full) = Some f ->
  later full afterwards ->
  (exists w',
     attachFile name empty = Return tt w' /\
     attached_file_ (this w') = Some (QFile_open (disk empty) (QFile_new name)) /\
     enqueued (AttachOperation name) (this empty) (this w') /\
     disk w' = disk empty /\ events w' = events empty) /\
  attachFile other full = Throw CantReattachErr full /\
  attachFile other afterwards = Throw CantReattachErr afterwards.
Proof.
  intros Hempty Hfull Hlater. repeat split.
  - unfold attachFile.
    rewrite (bind_Return get _ empty empty (this empty) eq_refl). rewrite Hempty.
    rewrite (bind_Return getDisk _ empty empty (disk empty) eq_refl).
    set (w1 := with_this (set_attached_file_
                            (Some (QFile_open (disk empty) (QFile_new name)))
                            (this empty)) empty).
    assert (H1 : update (set_attached_file_
                           (Some (QFile_open (disk empty) (QFile_new name)))) empty
                 = Return tt w1) by reflexivity.
    rewrite (bind_Return _ _ _ _ _ H1).
    destruct (enqueueOperation_enqueued (AttachOperation name) w1)
      as (w' & Hrun & Henq & Hd & Hev & Hf & _).
    exists w'. split; [exact Hrun|].
    unfold enqueued in *. open_world empty. subst w1. cbn in *.
    repeat split; assumption.
  - apply attachFile_again. unfold is_attached. congruence.
  - apply attachFile_again. apply (attached_later full afterwards Hlater).
    unfold is_attached. congruence.
Qed.

(** ** Lines and the bytes between two line ends *)

Lemma take_line_body (body : QByteArray) (b : byte) (rest : QByteArray) :
  no_LF body = true ->
  is_LF b = true \/ rest = [] ->
  take_line (body ++ b :: rest) = body ++ [b].
Proof.
  induction body as [| x body IH]; intros Hbody Hlast.
  - cbn. destruct (is_LF b) eqn:Hb; [reflexivity|].
    destruct Hlast as [Hlast | Hlast]; [discriminate | subst rest; reflexivity].
  - cbn in Hbody. apply andb_prop in Hbody. destruct Hbody as [Hx Hbody].
    cbn. apply negb_true_iff in Hx. rewrite Hx. f_equal. apply IH; assumption.
Qed.

Lemma skipn_nth_error {A} (l : list A) (k : nat) (x : A) :
  nth_error l k = Some x -> skipn k l = x :: skipn (S k) l.
Proof.
  revert k. induction l as [| y l IH]; intros [| k] H; cbn in *; try discriminate.
  - congruence.
  - apply IH. exact H.
Qed.

Lemma skipn_window {A} (l : list A) (n m : nat) (x : A) :
  nth_error l (n + m) = Some x ->
  skipn n l = firstn m (skipn n l) ++ x :: skipn (S (n + m)) l.
Proof.
  intros H. rewrite <- (firstn_skipn m (skipn n l)) at 1. f_equal.
  rewrite skipn_skipn. rewrite (Nat.add_comm m n). apply skipn_nth_error. exact H.
Qed.

Lemma firstn_window_length {A} (l : list A) (n m : nat) :
  (n + m <= length l)%nat -> length (firstn m (skipn n l)) = m.
Proof. intros H. rewrite length_firstn, length_skipn. lia. Qed.

Lemma firstn_S_window {A} (l : list A) (n m : nat) (x : A) :
  nth_error l (n + m) = Some x ->
  firstn (S m) (skipn n l) = firstn m (skipn n l) ++ [x].
Proof.
  intros H.
  assert (Hlen : (n + m < length l)%nat) by (apply nth_error_Some; congruence).
  rewrite (skipn_window l n m x H) at 1.
  rewrite firstn_app.
  rewrite (firstn_window_length l n m) by lia.
  rewrite (@firstn_all2 _ (S m) (firstn m (skipn n l)))
    by (rewrite firstn_window_length; lia).
  replace (S m - m)%nat with 1%nat by lia. reflexivity.
Qed.

(** The line that starts at [s] and ends at [e]: [readLine] from [s] reads
    exactly [bs[s .. e)], which is [bs[s .. e-1)] and one more byte. *)
Lemma line_is_slice (bs : QByteArray) (s e : Z) :
  0 <= s ->
  line_ends_at bs s e = true ->
  take_line (skipn (Z.to_nat s) bs) = slice bs s e /\
  exists b, byte_at bs (e - 1) = Some b /\
            slice bs s e = slice bs s (e - 1) ++ [b].
Proof.
  intros Hs H. unfold line_ends_at in H.
  apply andb_prop in H. destruct H as [H Hlast].
  apply andb_prop in H. destruct H as [H Hbody].
  apply andb_prop in H. destruct H as [Hlt Hle].
  apply Z.ltb_lt in Hlt. apply Z.leb_le in Hle. unfold len in *.
  set (n := Z.to_nat s). set (m := Z.to_nat (e - 1 - s)).
  assert (Hnm : (n + m)%nat = Z.to_nat (e - 1)) by (subst n m; lia).
  destruct (nth_error bs (n + m)) as [b|] eqn:Hb;
    [| apply nth_error_None in Hb; lia].
  assert (Hs1 : slice bs s (e - 1) = firstn m (skipn n bs)) by reflexivity.
  assert (Hs2 : slice bs s e = firstn m (skipn n bs) ++ [b]).
  { unfold slice. replace (Z.to_nat (e - s)) with (S m) by (subst m; lia).
    apply firstn_S_window. exact Hb. }
  split.
  2: { exists b. split; [| rewrite Hs1, Hs2; reflexivity].
       unfold byte_at. destruct (Z.ltb_spec (e - 1) 0); [lia|].
       rewrite <- Hnm. exact Hb. }
  rewrite Hs2. fold n. rewrite (skipn_window bs n m b Hb) at 1.
  apply take_line_body.
  - rewrite <- Hs1. exact Hbody.
  - apply orb_prop in Hlast. destruct Hlast as [Hlf | Heof].
    + left. unfold ends_with_LF, byte_at in Hlf.
      destruct (e - 1 <? 0) eqn:Hneg; [discriminate|].
      rewrite <- Hnm, Hb in Hlf. exact Hlf.
    + right. apply Z.eqb_eq in Heof. apply skipn_all2. lia.
Qed.

Lemma lines_ok_line (bs : QByteArray) (ends : list Z) (start : Z) (k : nat) :
  lines_ok bs start ends = true ->
  (k < length ends)%nat ->
  let from := match k with O => start | S j => nth j ends 0 end in
  start <= from /\ line_ends_at bs from (nth k ends 0) = true.
Proof.
  revert start k. induction ends as [| e ends IH]; intros start k H Hk; cbn in *.
  - lia.
  - apply andb_prop in H. destruct H as [Hline Hrest].
    destruct k as [| k].
    + split; [lia | exact Hline].
    + assert (Hse : start < e).
      { unfold line_ends_at in Hline.
        apply andb_prop in Hline. destruct Hline as [Hline _].
        apply andb_prop in Hline. destruct Hline as [Hline _].
        apply andb_prop in Hline. destruct Hline as [Hlt _].
        apply Z.ltb_lt in Hlt. exact Hlt. }
      specialize (IH e k Hrest ltac:(lia)). cbn in IH.
      destruct k as [| k]; cbn in *; destruct IH as [IH1 IH2]; split;
        try assumption; lia.
Qed.

Lemma chop_last (s : QString) (u : QChar) : chop 1 (s ++ [u]) = s.
Proof.
  unfold chop. rewrite length_app. cbn.
  replace (length s + 1 - 1)%nat with (length s) by lia.
  rewrite firstn_app, Nat.sub_diag, firstn_all. cbn. apply app_nil_r.
Qed.

(** ** Reading one line *)

Lemma is_LF_eq (b : byte) : is_LF b = true -> b = LF.
Proof. destruct b; cbn; intros H; try discriminate H; reflexivity. Qed.

Lemma getPosForLine_indexed (idx : IndexingData) (line : Z) :
  0 <= line < getNbLines idx ->
  getPosForLine idx line = Some (line_end idx line).
Proof.
  intros H. unfold getPosForLine, line_end, getNbLines in *.
  destruct (Z.ltb_spec line 0); [lia|].
  apply nth_error_nth'. lia.
Qed.

Lemma start_of_line_result (w : World) (i : Z) :
  0 <= i < getNbLines (indexing_data_ (this w)) ->
  start_of_line i w = Return (prev_end (indexing_data_ (this w)) i) w.
Proof.
  intros H. unfold start_of_line, prev_end.
  destruct (Z.eqb_spec i 0); [reflexivity|].
  unfold posForLine. run.
  rewrite getPosForLine_indexed by lia. reflexivity.
Qed.

Lemma prev_end_line_end (idx : IndexingData) (i : Z) :
  0 < i -> prev_end idx i = line_end idx (i - 1).
Proof.
  intros H. unfold prev_end, line_end.
  destruct (Z.eqb_spec i 0); [lia | reflexivity].
Qed.

(** Where a line starts and ends in a file that the index describes. *)
Lemma indexed_line (bs : QByteArray) (idx : IndexingData) (i : Z) :
  indexed bs idx ->
  0 <= i < getNbLines idx ->
  0 <= prev_end idx i /\
  line_ends_at bs (prev_end idx i) (line_end idx i) = true.
Proof.
  intros Hidx Hi. unfold indexed, getNbLines in *.
  pose proof (lines_ok_line bs (linePosition idx) 0 (Z.to_nat i) Hidx ltac:(lia)) as H.
  cbv zeta in H. unfold prev_end, line_end.
  destruct (Z.eqb_spec i 0) as [-> | Hne].
  - cbn in H. exact H.
  - replace (Z.to_nat i) with (S (Z.to_nat (i - 1))) in * by lia. exact H.
Qed.

Lemma file_seek_result (w : World) (f : QFile) (pos : Z) :
  attached_file_ (this w) = Some f ->
  file_seek pos w
  = Return tt {| this := set_attached_file_ (Some (QFile_seek pos f)) (this w);
                 disk := disk w;
                 events := events w ++ [FileSeek pos] |}.
Proof. intros H. unfold file_seek. run. rewrite H. reflexivity. Qed.

Lemma file_readLine_result (w : World) (f : QFile) :
  attached_file_ (this w) = Some f ->
  file_readLine w
  = Return (fst (QFile_readLine f))
           {| this := set_attached_file_ (Some (snd (QFile_readLine f))) (this w);
              disk := disk w;
              events := events w ++ [FileReadLine] |}.
Proof. intros H. unfold file_readLine. run. rewrite H. reflexivity. Qed.

Lemma file_read_result (w : World) (f : QFile) (maxSize : Z) :
  attached_file_ (this w) = Some f ->
  file_read maxSize w
  = Return (fst (QFile_read maxSize f))
           {| this := set_attached_file_ (Some (snd (QFile_read maxSize f))) (this w);
              disk := disk w;
              events := events w ++ [FileRead maxSize] |}.
Proof. intros H. unfold file_read. run. rewrite H. reflexivity. Qed.

(** Seeking to [pos] in an open file and reading a line gives the line that
    starts at [pos]. *)
Lemma readLine_after_seek (f : QFile) (pos : Z) :
  openMode f = ReadOnly -> 0 <= pos ->
  fst (QFile_readLine (QFile_seek pos f))
  = take_line (skipn (Z.to_nat pos) (contents f)).
Proof.
  intros Hopen Hpos. unfold QFile_seek. rewrite Hopen.
  destruct (Z.ltb_spec pos 0); [lia|]. reflexivity.
Qed.

(** What a single-line read does, before any assumption on the index or on
    the codec: lock, seek to the start of the line, read a line, unlock,
    decode, chop one code unit. *)
Lemma doGetLineString_steps (w : World) (f : QFile) (codec : QTextCodec) (i : Z) :
  attached_file_ (this w) = Some f ->
  codec_ (this w) = Some codec ->
  0 <= i < getNbLines (indexing_data_ (this w)) ->
  let from := prev_end (indexing_data_ (this w)) i in
  exists w',
    doGetLineString i w
    = Return (chop 1 (toUnicode codec (fst (QFile_readLine (QFile_seek from f))))) w' /\
    events w' = events w ++ [MutexLock; FileSeek from; FileReadLine; MutexUnlock] /\
    this w' = set_attached_file_
                (Some (snd (QFile_readLine (QFile_seek from f)))) (this w) /\
    disk w' = disk w.
Proof.
  intros Hfile Hcodec Hi from. unfold doGetLineString.
  rewrite (bind_Return get _ w w (this w) eq_refl).
  destruct (Z.leb_spec (getNbLines (indexing_data_ (this w))) i); [lia|].
  set (w1 := {| this := this w; disk := disk w; events := events w ++ [MutexLock] |}).
  rewrite (bind_Return (emit MutexLock) _ w w1 tt eq_refl).
  rewrite (bind_Return _ _ _ _ _ (start_of_line_result w1 i Hi)).
  change (prev_end (indexing_data_ (this w1)) i) with from.
  rewrite (bind_Return _ _ _ _ _ (file_seek_result w1 f from Hfile)).
  match goal with |- context [bind file_readLine _ ?w2] =>
    rewrite (bind_Return _ _ _ _ _ (file_readLine_result w2 (QFile_seek from f) eq_refl))
  end.
  run. rewrite Hcodec. eexists. split; [reflexivity|]. cbn.
  rewrite <- !app_assoc. cbn. repeat split.
Qed.



End Properties.

(** ** Files that do not end with a line feed *)

Lemma latin1_single_byte : single_byte latin1.
Proof. exists latin1_char. split; reflexivity. Qed.

(** C2.  The file ["one\ntwo"] has two lines by the scan of the spec, with
    line ends 4 and 7.  Whatever end the index records for the second line,
    [doGetLineString 1] reads ["two"] from offset 4 and chops one code unit
    unconditionally: it returns ["tw"], not ["two"]. *)
Theorem last_line_without_terminator_is_cut (e : Z) :
  let w := with_index (index_with 7 [4; e]) (indexed_world "log" one_two) in
  linePosition (index_all one_two) = [4; 7] /\
  getNbLines (index_all one_two) = 2 /\
  (exists w', doGetLineString 1 w = Return (qstring_of "tw") w') /\
  (forall w', doGetLineString 1 w <> Return (qstring_of "two") w').
Proof.
  cbv zeta. split; [reflexivity|]. split; [reflexivity|]. split.
  - eexists. vm_compute. reflexivity.
  - intros w' H. vm_compute in H. discriminate H.
Qed.

(** C3.  The file ["c<TAB>"] is one line without terminator, of end 2 by
    the scan of the spec.  Read alone and expanded, it comes back as ["c"]
    and six spaces: the seven spaces of the tab less the code unit chopped.
    Read as the range [(0, 1)] and expanded, it comes back as ["c"]: the
    slice stops one byte before the line end, before the tab.  The two
    differ, and they differ as well when the index records the end of the
    line one past the end of the file. *)
Theorem range_and_single_reads_differ :
  let w := indexed_world "log" c_tab in
  let w3 := with_index (index_with 2 [3]) w in
  linePosition (index_all c_tab) = [2] /\
  (exists w', doGetExpandedLineString 0 w
              = Return (qstring_of "c      ") w') /\
  (exists w', doGetExpandedLines (platform := example_platform) 0 1 w
              = Return [qstring_of "c"] w') /\
  (exists w', doGetExpandedLineString 0 w3
              = Return (qstring_of "c      ") w') /\
  (exists w', doGetExpandedLines (platform := example_platform) 0 1 w3
              = Return [qstring_of "c       "] w') /\
  (exists w', doGetLineString 0 w3 = Return (qstring_of "c") w') /\
  (exists w', doGetLines (platform := example_platform) 0 1 w3
              = Return [qstring_of ("c" ++ tab)] w') /\
  ~ (exists lines w1 wk,
       doGetExpandedLines (platform := example_platform) 0 1 w = Return lines w1 /\
       doGetExpandedLineString 0 w = Return (nth 0 lines []) wk).
Proof.
  cbv zeta. split; [reflexivity|].
  repeat (split; [eexists; vm_compute; reflexivity|]).
  intros (lines & w1 & wk & Hrange & Hone).
  vm_compute in Hrange. injection Hrange as Hlines _. subst lines.
  vm_compute in Hone. discriminate Hone.
Qed.

(** ** A display encoding whose line feed takes two bytes *)


(** ** Reading a range *)

Lemma line_bounds (bs : QByteArray) (idx : IndexingData) (i : Z) :
  indexed bs idx ->
  0 <= i < getNbLines idx ->
  0 <= prev_end idx i /\ prev_end idx i < line_end idx i /\ line_end idx i <= len bs.
Proof.
  intros Hidx Hi. destruct (indexed_line bs idx i Hidx Hi) as [H0 H].
  unfold line_ends_at in H.
  apply andb_prop in H. destruct H as [H _].
  apply andb_prop in H. destruct H as [H _].
  apply andb_prop in H. destruct H as [Hlt Hle].
  apply Z.ltb_lt in Hlt. apply Z.leb_le in Hle. lia.
Qed.

Lemma line_end_monotone (bs : QByteArray) (idx : IndexingData) (i : Z) (k : nat) :
  indexed bs idx ->
  0 <= i -> i + Z.of_nat k < getNbLines idx ->
  line_end idx i <= line_end idx (i + Z.of_nat k).
Proof.
  intros Hidx Hi. induction k as [| k IH]; intros Hk.
  - replace (i + Z.of_nat 0) with i by lia. lia.
  - specialize (IH ltac:(lia)).
    pose proof (line_bounds bs idx (i + Z.of_nat (S k)) Hidx ltac:(lia)) as [_ [Hlt _]].
    rewrite prev_end_line_end in Hlt by lia.
    replace (i + Z.of_nat (S k) - 1) with (i + Z.of_nat k) in Hlt by lia. lia.
Qed.

Lemma slice_of_slice (bs : QByteArray) (a c b n : Z) :
  0 <= a -> 0 <= b -> 0 <= n -> b + n <= c - a ->
  firstn (Z.to_nat n) (skipn (Z.to_nat b) (slice bs a c))
  = slice bs (a + b) (a + b + n).
Proof.
  intros Ha Hb Hn Hfit. unfold slice.
  rewrite skipn_firstn_comm, firstn_firstn, skipn_skipn.
  replace (a + b + n - (a + b)) with n by lia.
  replace (Nat.min (Z.to_nat n) (Z.to_nat (c - a) - Z.to_nat b)) with (Z.to_nat n) by lia.
  replace (Z.to_nat b + Z.to_nat a)%nat with (Z.to_nat (a + b)) by lia.
  reflexivity.
Qed.

(** A window that lies inside a list does not see what follows the list. *)
Lemma window_inside {A} (l r : list A) (b n : nat) :
  (b + n <= length l)%nat ->
  firstn n (skipn b (l ++ r)) = firstn n (skipn b l).
Proof.
  intros H. rewrite skipn_app, firstn_app, length_skipn.
  replace (n - (length l - b))%nat with O by lia.
  cbn. apply app_nil_r.
Qed.

Lemma slice_length_at_least (bs : QByteArray) (a c x : Z) :
  0 <= a -> x <= c - a -> x <= len bs - a -> x <= len (slice bs a c).
Proof.
  intros Ha Hc Hx. unfold slice, len in *.
  rewrite length_firstn, length_skipn. lia.
Qed.

(** The loop of a range read over a file that the index describes, with a
    single-byte codec: line after line, the bytes up to one before the line
    end, decoded and finished. *)
Lemma lines_loop_result (finish : QString -> QString) (idx : IndexingData)
    (codec : QTextCodec) (bs : QByteArray) (first_byte last_byte : Z)
    (todo : nat) (line : Z) (decoder : ConverterState) :
  single_byte codec ->
  indexed bs idx ->
  0 <= first_byte ->
  0 <= line ->
  first_byte <= prev_end idx line ->
  line + Z.of_nat todo <= getNbLines idx ->
  (forall j, line <= j < line + Z.of_nat todo -> line_end idx j <= last_byte) ->
  lines_loop finish idx codec (slice bs first_byte last_byte) first_byte
             todo line (prev_end idx line - first_byte) decoder
  = inr (map (fun j => finish (line_text codec bs idx j)) (lines_from line todo)).
Proof.
  intros [dec [Hdec1 Hdec2]] Hidx Hfirst.
  revert line. induction todo as [| todo IH]; intros line Hline Hfrom Hnb Hlast.
  - reflexivity.
  - cbn [lines_loop lines_from map].
    rewrite getPosForLine_indexed by lia.
    destruct (line_bounds bs idx line Hidx ltac:(lia)) as (H0 & Hlt & Hle).
    pose proof (Hlast line ltac:(lia)) as Hin.
    cbv zeta. unfold blob_at.
    pose proof (slice_length_at_least bs first_byte last_byte
                  (line_end idx line - 1 - first_byte) Hfirst ltac:(lia) ltac:(lia))
      as Hblob.
    replace (prev_end idx line - first_byte
             + (line_end idx line - first_byte - (prev_end idx line - first_byte) - 1))
      with (line_end idx line - 1 - first_byte) by lia.
    destruct (Z.leb_spec 0 (prev_end idx line - first_byte)); [| lia].
    destruct (Z.leb_spec 0 (line_end idx line - first_byte
                            - (prev_end idx line - first_byte) - 1)); [| lia].
    destruct (Z.leb_spec (line_end idx line - 1 - first_byte)
                         (len (slice bs first_byte last_byte) + 1)); [| lia].
    cbn [andb].
    rewrite window_inside by (unfold len in Hblob; lia).
    rewrite Hdec2. cbn [fst snd].
    rewrite slice_of_slice by lia.
    replace (first_byte + (prev_end idx line - first_byte))
      with (prev_end idx line) by lia.
    replace (prev_end idx line
             + (line_end idx line - first_byte - (prev_end idx line - first_byte) - 1))
      with (line_end idx line - 1) by lia.
    assert (Hnext : prev_end idx (line + 1) = line_end idx line).
    { rewrite prev_end_line_end by lia. f_equal. lia. }
    replace (line_end idx line - first_byte)
      with (prev_end idx (line + 1) - first_byte) by lia.
    rewrite IH.
    + unfold line_text. rewrite Hdec1. reflexivity.
    + lia.
    + lia.
    + lia.
    + intros j Hj. apply Hlast. lia.
Qed.

Lemma read_after_seek (f : QFile) (pos n : Z) :
  openMode f = ReadOnly -> 0 <= pos -> 0 <= n ->
  fst (QFile_read n (QFile_seek pos f)) = slice (contents f) pos (pos + n).
Proof.
  intros Hopen Hpos Hn. unfold QFile_seek, QFile_read, slice. rewrite Hopen.
  destruct (Z.ltb_spec pos 0); [lia|]. cbn.
  destruct (Z.ltb_spec n 0); [lia|]. cbn.
  replace (pos + n - pos) with n by lia. reflexivity.
Qed.

Lemma posForLine_result (w : World) (line : Z) :
  0 <= line < getNbLines (indexing_data_ (this w)) ->
  posForLine line w = Return (line_end (indexing_data_ (this w)) line) w.
Proof.
  intros H. unfold posForLine. run.
  rewrite getPosForLine_indexed by lia. reflexivity.
Qed.

Lemma lines_from_length (line : Z) (count : nat) :
  length (lines_from line count) = count.
Proof.
  revert line. induction count as [| count IH]; intros line; cbn; [reflexivity|].
  rewrite IH. reflexivity.
Qed.

Lemma lines_from_nth (line : Z) (count k : nat) :
  (k < count)%nat -> nth k (lines_from line count) 0 = line + Z.of_nat k.
Proof.
  revert line k. induction count as [| count IH]; intros line k Hk; [lia|].
  destruct k as [| k]; cbn [lines_from nth]; [lia|].
  rewrite IH by lia. lia.
Qed.

Lemma untabify_from_snoc (s : QString) (u : QChar) (col : Z) :
  u <> QChar_Tabulation ->
  untabify_from col (s ++ [u]) = untabify_from col s ++ [u].
Proof.
  intros Hu. revert col. induction s as [| ch s IH]; intros col; cbn.
  - destruct (Z.eqb_spec u QChar_Tabulation); [contradiction | reflexivity].
  - destruct (ch =? QChar_Tabulation).
    + rewrite IH, app_assoc. reflexivity.
    + rewrite IH. reflexivity.
Qed.

Lemma doGetExpandedLineString_steps (w : World) (f : QFile) (codec : QTextCodec) (i : Z) :
  attached_file_ (this w) = Some f ->
  codec_ (this w) = Some codec ->
  0 <= i < getNbLines (indexing_data_ (this w)) ->
  let from := prev_end (indexing_data_ (this w)) i in
  exists w',
    doGetExpandedLineString i w
    = Return (chop 1 (untabify (toUnicode codec
                                  (fst (QFile_readLine (QFile_seek from f)))))) w'.
Proof.
  intros Hfile Hcodec Hi from. unfold doGetExpandedLineString.
  rewrite (bind_Return get _ w w (this w) eq_refl).
  destruct (Z.leb_spec (getNbLines (indexing_data_ (this w))) i); [lia|].
  set (w1 := {| this := this w; disk := disk w; events := events w ++ [MutexLock] |}).
  rewrite (bind_Return (emit MutexLock) _ w w1 tt eq_refl).
  rewrite (bind_Return _ _ _ _ _ (start_of_line_result w1 i Hi)).
  change (prev_end (indexing_data_ (this w1)) i) with from.
  rewrite (bind_Return _ _ _ _ _ (file_seek_result w1 f from Hfile)).
  match goal with |- context [bind file_readLine _ ?w2] =>
    rewrite (bind_Return _ _ _ _ _ (file_readLine_result w2 (QFile_seek from f) eq_refl))
  end.
  run. rewrite Hcodec. eexists. reflexivity.
Qed.

(** A single read of an indexed line returns its text. *)
Lemma doGetLineString_text (w : World) (f : QFile) (codec : QTextCodec) (i : Z) :
  attached_file_ (this w) = Some f ->
  openMode f = ReadOnly ->
  codec_ (this w) = Some codec ->
  single_byte codec ->
  indexed (contents f) (indexing_data_ (this w)) ->
  0 <= i < getNbLines (indexing_data_ (this w)) ->
  exists w',
    doGetLineString i w
    = Return (line_text codec (contents f) (indexing_data_ (this w)) i) w'.
Proof.
  intros Hfile Hopen Hcodec [dec [Hdec _]] Hidx Hi.
  destruct (indexed_line (contents f) _ i Hidx Hi) as [Hfrom Hline].
  destruct (line_is_slice (contents f) _ _ Hfrom Hline) as [Hread [b [_ Hlast]]].
  destruct (doGetLineString_steps w f codec i Hfile Hcodec Hi) as (w' & Hrun & _).
  rewrite (readLine_after_seek f _ Hopen Hfrom), Hread, Hlast in Hrun.
  rewrite Hdec, map_app in Hrun. cbn in Hrun. rewrite chop_last in Hrun.
  exists w'. unfold line_text. rewrite Hdec. exact Hrun.
Qed.

(** A single expanded read of an indexed line that ends with a line feed
    returns its text with the tabs expanded, provided the codec does not
    decode the line feed as a tab. *)
Lemma doGetExpandedLineString_text
    (w : World) (f : QFile) (codec : QTextCodec) (i : Z) :
  attached_file_ (this w) = Some f ->
  openMode f = ReadOnly ->
  codec_ (this w) = Some codec ->
  single_byte codec ->
  toUnicode codec [LF] <> [QChar_Tabulation] ->
  indexed (contents f) (indexing_data_ (this w)) ->
  0 <= i < getNbLines (indexing_data_ (this w)) ->
  ends_with_LF (contents f) (line_end (indexing_data_ (this w)) i) = true ->
  exists w',
    doGetExpandedLineString i w
    = Return (untabify (line_text codec (contents f) (indexing_data_ (this w)) i)) w'.
Proof.
  intros Hfile Hopen Hcodec [dec [Hdec _]] Htab Hidx Hi Hlf.
  destruct (indexed_line (contents f) _ i Hidx Hi) as [Hfrom Hline].
  destruct (line_is_slice (contents f) _ _ Hfrom Hline) as [Hread [b [Hb Hlast]]].
  unfold ends_with_LF in Hlf. rewrite Hb in Hlf. apply is_LF_eq in Hlf. subst b.
  destruct (doGetExpandedLineString_steps w f codec i Hfile Hcodec Hi) as (w' & Hrun).
  rewrite (readLine_after_seek f _ Hopen Hfrom), Hread, Hlast in Hrun.
  rewrite Hdec, map_app in Hrun. cbn [map] in Hrun.
  unfold untabify in Hrun. rewrite untabify_from_snoc in Hrun.
  - rewrite chop_last in Hrun.
    exists w'. unfold line_text, untabify. rewrite Hdec. exact Hrun.
  - intros E. apply Htab. rewrite Hdec. cbn. rewrite E. reflexivity.
Qed.

Section Ranges.

Context {platform : Platform}.

(** A range read over a file that the index describes, with a single-byte
    codec, returns the text of each line of the range, in order. *)
Lemma doGetLines_result (w : World) (f : QFile) (codec : QTextCodec)
    (first_line number : Z) :
  attached_file_ (this w) = Some f ->
  openMode f = ReadOnly ->
  codec_ (this w) = Some codec ->
  single_byte codec ->
  indexed (contents f) (indexing_data_ (this w)) ->
  0 <= first_line -> 0 < number ->
  first_line + number <= getNbLines (indexing_data_ (this w)) ->
  getNbLines (indexing_data_ (this w)) <= 2 ^ Z.of_N line_bits ->
  exists w',
    doGetLines first_line number w
    = Return (map (line_text codec (contents f) (indexing_data_ (this w)))
                  (lines_from first_line (Z.to_nat number))) w'.
Proof.
  intros Hfile Hopen Hcodec Hsingle Hidx Hfirst Hnumber Hrange Hbits.
  set (idx := indexing_data_ (this w)) in *.
  assert (Hlast : last_line_of first_line number = first_line + number - 1)
    by (apply wrap_line_small; lia).
  destruct (line_bounds (contents f) idx first_line Hidx ltac:(lia)) as (Hf0 & Hf1 & _).
  pose proof (line_end_monotone (contents f) idx first_line (Z.to_nat (number - 1))
                Hidx Hfirst ltac:(lia)) as Hmono.
  replace (first_line + Z.of_nat (Z.to_nat (number - 1)))
    with (first_line + number - 1) in Hmono by lia.
  unfold doGetLines.
  rewrite (bind_Return get _ w w (this w) eq_refl). fold idx. rewrite Hlast.
  destruct (Z.eqb_spec number 0); [lia|].
  destruct (Z.leb_spec (getNbLines idx) (first_line + number - 1)); [lia|].
  rewrite (bind_Return _ _ _ _ _ (start_of_line_result w first_line ltac:(fold idx; lia))).
  rewrite (bind_Return _ _ _ _ _ (posForLine_result w (first_line + number - 1)
                                    ltac:(fold idx; lia))).
  fold idx.
  set (first_byte := prev_end idx first_line) in *.
  set (last_byte := line_end idx (first_line + number - 1)) in *.
  set (w1 := {| this := this w; disk := disk w; events := events w ++ [MutexLock] |}).
  rewrite (bind_Return (emit MutexLock) _ w w1 tt eq_refl).
  rewrite (bind_Return _ _ _ _ _ (file_seek_result w1 f first_byte Hfile)).
  match goal with |- context [bind (file_read ?n) _ ?w2] =>
    rewrite (bind_Return _ _ _ _ _ (file_read_result w2 (QFile_seek first_byte f) n eq_refl))
  end.
  rewrite read_after_seek by (assumption || lia).
  replace (first_byte + (last_byte - first_byte)) with last_byte by lia.
  run. rewrite Hcodec. cbn.
  replace (Z.to_nat (first_line + number - 1 - first_line + 1))
    with (Z.to_nat number) by lia.
  assert (Hends : forall j, first_line <= j < first_line + Z.of_nat (Z.to_nat number) ->
                            line_end idx j <= last_byte).
  { intros j Hj.
    pose proof (line_end_monotone (contents f) idx j
                  (Z.to_nat (first_line + number - 1 - j)) Hidx ltac:(lia) ltac:(lia))
      as Hj2.
    replace (j + Z.of_nat (Z.to_nat (first_line + number - 1 - j)))
      with (first_line + number - 1) in Hj2 by lia.
    exact Hj2. }
  pose proof (lines_loop_result (fun s => s) idx codec (contents f) first_byte last_byte
                (Z.to_nat number) first_line (makeDecoder codec)
                Hsingle Hidx Hf0 Hfirst ltac:(unfold first_byte; lia) ltac:(lia) Hends)
    as Hloop.
  replace (prev_end idx first_line - first_byte) with 0 in Hloop
    by (unfold first_byte; lia).
  rewrite Hloop. eexists. reflexivity.
Qed.

(** And an expanded range read returns the text of each line with its tabs
    expanded. *)
Lemma doGetExpandedLines_result (w : World) (f : QFile) (codec : QTextCodec)
    (first_line number : Z) :
  attached_file_ (this w) = Some f ->
  openMode f = ReadOnly ->
  codec_ (this w) = Some codec ->
  single_byte codec ->
  indexed (contents f) (indexing_data_ (this w)) ->
  0 <= first_line -> 0 < number ->
  first_line + number <= getNbLines (indexing_data_ (this w)) ->
  getNbLines (indexing_data_ (this w)) <= 2 ^ Z.of_N line_bits ->
  exists w',
    doGetExpandedLines first_line number w
    = Return (map (fun j => untabify (line_text codec (contents f)
                                               (indexing_data_ (this w)) j))
                  (lines_from first_line (Z.to_nat number))) w'.
Proof.
  intros Hfile Hopen Hcodec Hsingle Hidx Hfirst Hnumber Hrange Hbits.
  set (idx := indexing_data_ (this w)) in *.
  assert (Hlast : last_line_of first_line number = first_line + number - 1)
    by (apply wrap_line_small; lia).
  destruct (line_bounds (contents f) idx first_line Hidx ltac:(lia)) as (Hf0 & Hf1 & _).
  pose proof (line_end_monotone (contents f) idx first_line (Z.to_nat (number - 1))
                Hidx Hfirst ltac:(lia)) as Hmono.
  replace (first_line + Z.of_nat (Z.to_nat (number - 1)))
    with (first_line + number - 1) in Hmono by lia.
  unfold doGetExpandedLines.
  rewrite (bind_Return get _ w w (this w) eq_refl). fold idx. rewrite Hlast.
  destruct (Z.eqb_spec number 0); [lia|].
  destruct (Z.leb_spec (getNbLines idx) (first_line + number - 1)); [lia|].
  set (w1 := {| this := this w; disk := disk w; events := events w ++ [MutexLock] |}).
  rewrite (bind_Return (emit MutexLock) _ w w1 tt eq_refl).
  assert (Hidx1 : indexing_data_ (this w1) = idx) by reflexivity.
  rewrite (bind_Return _ _ _ _ _ (start_of_line_result w1 first_line
                                    ltac:(rewrite Hidx1; lia))).
  rewrite (bind_Return _ _ _ _ _ (posForLine_result w1 (first_line + number - 1)
                                    ltac:(rewrite Hidx1; lia))).
  change (indexing_data_ (this w1)) with idx.
  set (first_byte := prev_end idx first_line) in *.
  set (last_byte := line_end idx (first_line + number - 1)) in *.
  rewrite (bind_Return _ _ _ _ _ (file_seek_result w1 f first_byte Hfile)).
  match goal with |- context [bind (file_read ?n) _ ?w2] =>
    rewrite (bind_Return _ _ _ _ _ (file_read_result w2 (QFile_seek first_byte f) n eq_refl))
  end.
  rewrite read_after_seek by (assumption || lia).
  replace (first_byte + (last_byte - first_byte)) with last_byte by lia.
  run. rewrite Hcodec. cbn.
  replace (Z.to_nat (first_line + number - 1 - first_line + 1))
    with (Z.to_nat number) by lia.
  assert (Hends : forall j, first_line <= j < first_line + Z.of_nat (Z.to_nat number) ->
                            line_end idx j <= last_byte).
  { intros j Hj.
    pose proof (line_end_monotone (contents f) idx j
                  (Z.to_nat (first_line + number - 1 - j)) Hidx ltac:(lia) ltac:(lia))
      as Hj2.
    replace (j + Z.of_nat (Z.to_nat (first_line + number - 1 - j)))
      with (first_line + number - 1) in Hj2 by lia.
    exact Hj2. }
  pose proof (lines_loop_result untabify idx codec (contents f) first_byte last_byte
                (Z.to_nat number) first_line (makeDecoder codec)
                Hsingle Hidx Hf0 Hfirst ltac:(unfold first_byte; lia) ltac:(lia) Hends)
    as Hloop.
  replace (prev_end idx first_line - first_byte) with 0 in Hloop
    by (unfold first_byte; lia).
  rewrite Hloop. eexists. reflexivity.
Qed.

(** X21.  Where a range read and single reads agree: on every valid range
    for the plain readers; for the expanded readers, on every line of the
    range that ends with a line feed. *)
Theorem range_read_agrees_with_single_reads
    (w : World) (f : QFile) (codec : QTextCodec) (first_line number k : Z) :
  attached_file_ (this w) = Some f ->
  openMode f = ReadOnly ->
  codec_ (this w) = Some codec ->
  single_byte codec ->
  toUnicode codec [LF] <> [QChar_Tabulation] ->
  indexed (contents f) (indexing_data_ (this w)) ->
  0 <= first_line -> 0 < number ->
  first_line + number <= getNbLines (indexing_data_ (this w)) ->
  getNbLines (indexing_data_ (this w)) <= 2 ^ Z.of_N line_bits ->
  0 <= k < number ->
  (exists lines w1 wk,
     doGetLines first_line number w = Return lines w1 /\
     Z.of_nat (length lines) = number /\
     doGetLineString (first_line + k) w = Return (nth (Z.to_nat k) lines []) wk) /\
  (ends_with_LF (contents f)
                (line_end (indexing_data_ (this w)) (first_line + k)) = true ->
   exists lines w1 wk,
     doGetExpandedLines first_line number w = Return lines w1 /\
     Z.of_nat (length lines) = number /\
     doGetExpandedLineString (first_line + k) w
     = Return (nth (Z.to_nat k) lines []) wk).
Proof.
  intros Hfile Hopen Hcodec Hsingle Htab Hidx Hfirst Hnumber Hrange Hbits Hk.
  assert (Hnth : forall (g : Z -> QString),
             nth (Z.to_nat k) (map g (lines_from first_line (Z.to_nat number))) []
             = g (first_line + k)).
  { intros g.
    rewrite (nth_indep _ [] (g 0)) by (rewrite length_map, lines_from_length; lia).
    rewrite (map_nth g), lines_from_nth by lia. f_equal. lia. }
  split.
  - destruct (doGetLines_result w f codec first_line number
                Hfile Hopen Hcodec Hsingle Hidx Hfirst Hnumber Hrange Hbits)
      as (w1 & Hrun).
    destruct (doGetLineString_text w f codec (first_line + k)
                Hfile Hopen Hcodec Hsingle Hidx ltac:(lia)) as (wk & Hone).
    do 3 eexists. split; [exact Hrun|]. split.
    + rewrite length_map, lines_from_length. lia.
    + rewrite Hnth. exact Hone.
  - intros Hlf.
    destruct (doGetExpandedLines_result w f codec first_line number
                Hfile Hopen Hcodec Hsingle Hidx Hfirst Hnumber Hrange Hbits)
      as (w1 & Hrun).
    destruct (doGetExpandedLineString_text w f codec (first_line + k)
                Hfile Hopen Hcodec Hsingle Htab Hidx ltac:(lia) Hlf) as (wk & Hone).
    do 3 eexists. split; [exact Hrun|]. split.
    + rewrite length_map, lines_from_length. lia.
    + rewrite (Hnth (fun j => untabify (line_text codec (contents f)
                                          (indexing_data_ (this w)) j))).
      exact Hone.
Qed.

End Ranges.

(** ** The scan of the indexer produces an index that describes the file *)

Lemma no_LF_firstn (n : nat) (bs : QByteArray) :
  no_LF bs = true -> no_LF (firstn n bs) = true.
Proof.
  revert n. induction bs as [| b bs IH]; intros [| n] H; cbn in *; try reflexivity.
  apply andb_prop in H. destruct H as [Hb H]. rewrite Hb. cbn. apply IH. exact H.
Qed.

Lemma no_LF_app (xs ys : QByteArray) :
  no_LF xs = true -> no_LF ys = true -> no_LF (xs ++ ys) = true.
Proof. intros Hx Hy. unfold no_LF in *. rewrite forallb_app, Hx, Hy. reflexivity. Qed.

Lemma slice_shorter (bs : QByteArray) (s e : Z) :
  slice bs s (e - 1) = firstn (Z.to_nat (e - 1 - s)) (slice bs s e).
Proof.
  unfold slice. rewrite firstn_firstn. f_equal. lia.
Qed.

Lemma slice_one_more (bs : QByteArray) (s pos : Z) (b : byte) :
  0 <= s <= pos ->
  nth_error bs (Z.to_nat pos) = Some b ->
  slice bs s (pos + 1) = slice bs s pos ++ [b].
Proof.
  intros Hs Hb. unfold slice.
  replace (Z.to_nat (pos + 1 - s)) with (S (Z.to_nat (pos - s))) by lia.
  apply firstn_S_window.
  replace (Z.to_nat s + Z.to_nat (pos - s))%nat with (Z.to_nat pos) by lia.
  exact Hb.
Qed.

Lemma scan_lines_ok (rest before : QByteArray) (start : Z) (partial : bool) :
  let bs := before ++ rest in
  let pos := len before in
  0 <= start <= pos ->
  (partial = true <-> start < pos) ->
  no_LF (slice bs start pos) = true ->
  lines_ok bs start (scan_lines rest pos partial) = true.
Proof.
  revert before start partial.
  induction rest as [| b rest IH]; intros before start partial bs pos Hstart Hpartial Hbody.
  - cbn [scan_lines]. destruct partial; [| reflexivity].
    cbn [lines_ok]. rewrite andb_true_r. unfold line_ends_at.
    assert (Hlen : len bs = pos) by (unfold bs, pos, len; rewrite app_nil_r; reflexivity).
    assert (start < pos) by (apply Hpartial; reflexivity).
    rewrite (proj2 (Z.ltb_lt start pos)) by lia.
    rewrite (proj2 (Z.leb_le pos (len bs))) by lia.
    rewrite slice_shorter, no_LF_firstn by exact Hbody.
    rewrite (proj2 (Z.eqb_eq pos (len bs))) by lia.
    rewrite orb_true_r. reflexivity.
  - assert (Hbs : bs = (before ++ [b]) ++ rest)
      by (unfold bs; rewrite <- app_assoc; reflexivity).
    assert (Hpos : len (before ++ [b]) = pos + 1)
      by (unfold pos, len; rewrite length_app; cbn; lia).
    assert (Hb : nth_error bs (Z.to_nat pos) = Some b).
    { unfold bs, pos, len. rewrite Nat2Z.id, nth_error_app2, Nat.sub_diag by lia.
      reflexivity. }
    cbn [scan_lines]. destruct (is_LF b) eqn:Hlf.
    + cbn [lines_ok]. apply andb_true_intro. split.
      * unfold line_ends_at.
        rewrite (proj2 (Z.ltb_lt start (pos + 1))) by lia.
        assert (pos + 1 <= len bs).
        { unfold bs, pos, len. rewrite length_app. cbn. lia. }
        rewrite (proj2 (Z.leb_le (pos + 1) (len bs))) by lia.
        replace (pos + 1 - 1) with pos by lia. rewrite Hbody.
        unfold ends_with_LF, byte_at. replace (pos + 1 - 1) with pos by lia.
        destruct (Z.ltb_spec pos 0); [unfold pos, len in *; lia|].
        rewrite Hb, Hlf. reflexivity.
      * rewrite <- Hpos. rewrite Hbs. apply IH.
        -- rewrite Hpos. unfold pos, len. lia.
        -- split; [discriminate | lia].
        -- unfold slice. rewrite Z.sub_diag. reflexivity.
    + rewrite <- Hpos. rewrite Hbs. apply IH.
      * rewrite Hpos. lia.
      * split; [lia | reflexivity].
      * rewrite Hpos, <- Hbs. rewrite (slice_one_more bs start pos b) by (assumption || lia).
        apply no_LF_app; [exact Hbody|]. cbn. rewrite Hlf. reflexivity.
Qed.

(** For every file, the index built by the scan of the spec describes it. *)
Theorem index_all_indexed (bs : QByteArray) : indexed bs (index_all bs).
Proof.
  unfold indexed. cbn [index_all linePosition].
  apply (scan_lines_ok bs [] 0 false).
  - cbn. lia.
  - cbn. split; [discriminate | lia].
  - reflexivity.
Qed.

(** ** The scenarios of the specification, run *)

(** The example world is where attaching, indexing and the end-of-indexing
    slot lead. *)
Example attach_then_index_then_finish :
  (attachFile "log" ;;
   update (set_indexing_data_ (index_all alpha_beta_gamma)) ;;
   indexingFinished Successful) (fresh_world "log" alpha_beta_gamma)
  = Return tt (indexed_world "log" alpha_beta_gamma).
Proof. reflexivity. Qed.

Example scenario_1 :
  let w := indexed_world "log" alpha_beta_gamma in
  doGetNbLine w = Return 3 w /\
  doGetMaxLength w = Return 5 w /\
  (exists w', doGetLineString 0 w = Return (qstring_of "alpha") w') /\
  (exists w', doGetLineString 2 w = Return (qstring_of "gamma") w').
Proof. cbv zeta. repeat split; try eexists; reflexivity. Qed.

Example scenario_4 :
  let w := indexed_world "log" (bytes_of ("a" ++ tab ++ "b" ++ nl)) in
  doGetMaxLength w = Return 9 w /\
  (exists w', doGetLineString 0 w = Return (qstring_of ("a" ++ tab ++ "b")) w') /\
  (exists w', doGetExpandedLineString 0 w = Return (qstring_of "a       b") w').
Proof. cbv zeta. repeat split; try eexists; reflexivity. Qed.

(** ** The theorems above, at concrete facades *)


Lemma file_change_decides_reindex_at_growth :
  exists w',
    fileChangedOnDisk "log"
      (on_disk (disk_of "log" (alpha_beta_gamma ++ bytes_of ("delta" ++ nl)) 2)
               (indexed_world "log" alpha_beta_gamma))
    = Return tt w' /\
    fileChangedOnDisk_ (this w') = DataAdded /\
    currentOperation_ (this w') = Some PartialIndexOperation.
Proof.
  destruct (file_change_decides_reindex
              (on_disk (disk_of "log" (alpha_beta_gamma ++ bytes_of ("delta" ++ nl)) 2)
                       (indexed_world "log" alpha_beta_gamma))
              (QFile_open (disk_of "log" alpha_beta_gamma 1) (QFile_new "log"))
              "log" eq_refl)
    as (w' & Hrun & _ & _ & Hadded & _).
  destruct (Hadded eq_refl ltac:(discriminate)) as [Hstate Hqueue].
  exists w'. split; [exact Hrun|]. split; [exact Hstate|]. exact (proj1 Hqueue).
Defined.

Lemma queue_keeps_one_pending_while_attaching :
  enqueueOperation PartialIndexOperation (attaching_world "log" one_two)
  = Return tt (with_this (set_nextOperation_ (Some PartialIndexOperation)
                            (this (attaching_world "log" one_two)))
                 (attaching_world "log" one_two)).
Proof.
  exact (proj1 (proj2
           (queue_keeps_one_pending
              (indexed_world "log" one_two) (attaching_world "log" one_two)
              PartialIndexOperation (FullIndexOperation None)
              (AttachOperation "log") Successful
              (QFile_open (disk_of "log" one_two 1) (QFile_new "log"))
              eq_refl eq_refl eq_refl))).
Defined.

Lemma attach_succeeds_once_then_throws :
  attachFile "other" (indexed_world "log" one_two)
  = Throw CantReattachErr (indexed_world "log" one_two).
Proof.
  exact (proj1 (proj2
           (attach_succeeds_once (platform := example_platform)
              (fresh_world "log" one_two) "log" "other"
              (indexed_world "log" one_two)
              (QFile_open (disk_of "log" one_two 1) (QFile_new "log"))
              (indexed_world "log" one_two)
              eq_refl eq_refl (later_now _)))).
Defined.

Lemma reads_beyond_the_index_are_empty_at_line_2 :
  doGetLineString 2 (indexed_world "log" one_two)
  = Return [] (indexed_world "log" one_two).
Proof.
  exact (proj1 (proj1
           (reads_beyond_the_index_are_empty (platform := example_platform)
              (indexed_world "log" one_two) 2 1 2
              (fresh_world "log" one_two) 0 0 1
              ltac:(cbn; lia)
              ltac:(vm_compute; intros H; discriminate H)
              eq_refl eq_refl ltac:(lia)))).
Defined.

Lemma display_encoding_reloads_for_utf16 :
  exists w',
    doSetDisplayEncoding (platform := example_platform) "UTF-16LE"
                         (indexed_world "log" one_two)
    = Return tt w' /\
    codec_ (this w') = Some utf16le.
Proof.
  destruct (display_encoding_reloads_on_class_change (platform := example_platform)
              (indexed_world "log" one_two) "UTF-16LE" utf16le
              (QFile_open (disk_of "log" one_two 1) (QFile_new "log"))
              eq_refl eq_refl
              ltac:(cbn; intros H; discriminate H))
    as (w' & Hrun & Hcodec & _).
  exists w'. split; [exact Hrun | exact Hcodec].
Defined.

Lemma indexing_finished_resets_after_attach :
  exists w',
    indexingFinished Successful (attaching_world "log" one_two) = Return tt w' /\
    fileChangedOnDisk_ (this w') = Unchanged.
Proof.
  destruct (indexing_finished_resets_change_state Successful
              (attaching_world "log" one_two) (AttachOperation "log")
              (QFile_open (disk_of "log" one_two 1) (QFile_new "log"))
              eq_refl eq_refl)
    as (w' & Hrun & Hstate & _).
  exists w'. split; [exact Hrun | exact Hstate].
Defined.

(** * Further properties of the facade *)

(** ** Reopening and reloading *)

(** X1.  [reOpenFile] replaces the source by a fresh one on the same name:
    at position 0, open exactly when the name exists on disk, then showing
    the bytes on disk, and of the size found on disk in either case.  The
    replacement is made between one lock and one unlock of the file mutex
    and nothing else changes. *)
Theorem reOpenFile_follows_the_name (w : World) (f : QFile) :
  attached_file_ (this w) = Some f ->
  exists f',
    reOpenFile w
    = Return tt {| this := set_attached_file_ (Some f') (this w);
                   disk := disk w;
                   events := events w ++ [MutexLock; MutexUnlock] |} /\
    fileName f' = fileName f /\
    filePos f' = 0 /\
    (openMode f' = ReadOnly <-> QFileInfo_exists (disk w) (fileName f) = true) /\
    match disk w (fileName f) with
    | Some on_disk => contents f' = d_bytes on_disk
    | None => contents f' = []
    end /\
    QFile_size (disk w) f' = QFileInfo_size (disk w) (fileName f).
Proof.
  intros Hfile. exists (QFile_open (disk w) (QFile_new (fileName f))).
  split; [apply reOpenFile_result; exact Hfile|].
  pose proof (QFile_size_reopened (disk w) (fileName f)) as Hsize.
  unfold QFile_open, QFile_new, QFileInfo_exists in *. cbn in *.
  destruct (disk w (fileName f)); cbn; repeat split; try assumption;
    try reflexivity; intros H; discriminate H.
Qed.

(** X2.  [reload] interrupts the worker before anything else, reopens the
    source on its name and enqueues a full index with the forced encoding
    it was given: an idle worker receives [interrupt] and then [indexAll],
    a busy one receives [interrupt] only, and the full index replaces
    whatever was pending. *)
Theorem reload_interrupts_then_enqueues
    (w : World) (f : QFile) (forced : option QTextCodec) :
  attached_file_ (this w) = Some f ->
  exists w',
    reload forced w = Return tt w' /\
    workerThread_ (this w')
    = workerThread_ (this w)
      ++ W_interrupt :: match currentOperation_ (this w) with
                        | None => [W_indexAll forced]
                        | Some _ => []
                        end /\
    currentOperation_ (this w')
    = match currentOperation_ (this w) with
      | None => Some (FullIndexOperation forced)
      | Some running => Some running
      end /\
    nextOperation_ (this w')
    = match currentOperation_ (this w) with
      | None => nextOperation_ (this w)
      | Some _ => Some (FullIndexOperation forced)
      end /\
    attached_file_ (this w') = Some (QFile_open (disk w) (QFile_new (fileName f))) /\
    events w' = events w ++ [MutexLock; MutexUnlock].
Proof.
  intros Hfile.
  destruct (reload_result w f forced Hfile)
    as (w' & Hrun & Henq & Hsrc & _ & _ & _ & Hev & _).
  exists w'. split; [exact Hrun|].
  unfold enqueued in Henq. open_world w.
  destruct currentOperation_0; destruct Henq as (Hc & Hn & Hw);
    rewrite Hc, Hn, Hw, <- ?app_assoc; cbn; repeat split; assumption.
Qed.

(** ** Coalescing *)

Lemma enqueue_all_busy (ops : list LogDataOperation) (last_op running : LogDataOperation)
    (w : World) :
  currentOperation_ (this w) = Some running ->
  enqueue_all (ops ++ [last_op]) w
  = Return tt (with_this (set_nextOperation_ (Some last_op) (this w)) w).
Proof.
  revert w. induction ops as [| op ops IH]; intros w Hbusy.
  - cbn [app enqueue_all].
    rewrite (bind_Return _ _ _ _ _ (enqueueOperation_busy last_op running w Hbusy)).
    reflexivity.
  - cbn [app enqueue_all].
    rewrite (bind_Return _ _ _ _ _ (enqueueOperation_busy op running w Hbusy)).
    rewrite IH by (open_world w; exact Hbusy).
    open_world w. reflexivity.
Qed.

(** X3.  However many operations are enqueued while one is running, when it
    finishes exactly one further operation is started, the last one
    enqueued: it becomes the current operation, the pending slot is empty,
    and the worker receives the calls of that operation and no others. *)
Theorem only_the_latest_enqueued_runs
    (busy : World) (ops : list LogDataOperation)
    (last_op running : LogDataOperation) (status : LoadingStatus) (f : QFile) :
  currentOperation_ (this busy) = Some running ->
  attached_file_ (this busy) = Some f ->
  exists queued done,
    enqueue_all (ops ++ [last_op]) busy = Return tt queued /\
    workerThread_ (this queued) = workerThread_ (this busy) /\
    indexingFinished status queued = Return tt done /\
    currentOperation_ (this done) = Some last_op /\
    nextOperation_ (this done) = None /\
    workerThread_ (this done) = workerThread_ (this busy) ++ calls_of last_op.
Proof.
  intros Hbusy Hfile.
  set (queued := with_this (set_nextOperation_ (Some last_op) (this busy)) busy).
  assert (Hbusy' : currentOperation_ (this queued) = Some running)
    by (open_world busy; exact Hbusy).
  assert (Hfile' : attached_file_ (this queued) = Some f)
    by (open_world busy; exact Hfile).
  destruct (indexingFinished_result status queued running f Hbusy' Hfile')
    as (done & Hrun & _ & Hcur & Hnext & Hcalls & _).
  exists queued, done.
  split; [apply (enqueue_all_busy ops last_op running); exact Hbusy|].
  split; [open_world busy; reflexivity|].
  split; [exact Hrun|].
  repeat split; assumption.
Qed.

(** ** Attaching a file that cannot be opened *)

(** X4.  [attachFile] does not look at the result of [open]: for a name
    under which nothing exists it returns normally all the same, the source
    is attached but closed, the attach operation is handed to an idle
    worker, and any further [attachFile] throws. *)
Theorem attachFile_ignores_a_failed_open (w : World) (name other : string) :
  attached_file_ (this w) = None ->
  currentOperation_ (this w) = None ->
  disk w name = None ->
  exists w',
    attachFile name w = Return tt w' /\
    attached_file_ (this w') = Some (QFile_new name) /\
    currentOperation_ (this w') = Some (AttachOperation name) /\
    workerThread_ (this w')
    = workerThread_ (this w) ++ [W_attachFile name; W_indexAll None] /\
    attachFile other w' = Throw CantReattachErr w'.
Proof.
  intros Hnone Hidle Hmissing. open_world w. subst.
  unfold attachFile, enqueueOperation, startOperation, QFile_open. run.
  rewrite Hmissing. cbn.
  eexists. split; [reflexivity|]. cbn. rewrite <- ?app_assoc. repeat split.
Qed.

(** ** What a read leaves behind *)

#[local] Opaque Z.eqb Z.ltb Z.leb.

Ltac exec H :=
  cbv [bind ret get update getDisk emit throw crash call_worker attached
       the_codec posForLine file_seek file_readLine file_read lift_fault
       discard with_this start_of_line] in H;
  cbn in H;
  repeat (match type of H with
          | context [match ?x with _ => _ end] =>
              lazymatch x with
              | context [match _ with _ => _ end] => fail
              | _ => idtac
              end;
              destruct x eqn:?; cbn in H; try discriminate H
          end).

Lemma mutex_depth_app (evs more : list Event) :
  mutex_depth (evs ++ more) = mutex_depth evs + mutex_depth more.
Proof.
  induction evs as [| e evs IH]; cbn; [lia|].
  destruct e; rewrite ?IH; lia.
Qed.

Lemma same_source_refl (f : QFile) : same_source f f.
Proof. repeat split. Qed.

Lemma same_source_trans (f g h : QFile) :
  same_source f g -> same_source g h -> same_source f h.
Proof.
  unfold same_source. intros (H1 & H2 & H3) (K1 & K2 & K3).
  repeat split; congruence.
Qed.

Lemma QFile_seek_same (pos : Z) (f : QFile) : same_source f (QFile_seek pos f).
Proof.
  unfold QFile_seek. destruct (openMode f) eqn:E; [apply same_source_refl|].
  destruct (pos <? 0); [apply same_source_refl|].
  unfold same_source. cbn. repeat split. congruence.
Qed.

Lemma QFile_readLine_same (f : QFile) : same_source f (snd (QFile_readLine f)).
Proof.
  unfold QFile_readLine. destruct (openMode f) eqn:E; cbn;
    [apply same_source_refl | repeat split].
Qed.

Lemma QFile_read_same (maxSize : Z) (f : QFile) :
  same_source f (snd (QFile_read maxSize f)).
Proof.
  unfold QFile_read. destruct (openMode f) eqn:E; cbn; [apply same_source_refl|].
  destruct (maxSize <? 0); cbn; [apply same_source_refl | repeat split].
Qed.

Ltac same_source_goal :=
  repeat first
    [ apply same_source_refl
    | apply QFile_seek_same
    | apply QFile_readLine_same
    | apply QFile_read_same
    | eapply same_source_trans; [| apply QFile_readLine_same]
    | eapply same_source_trans; [| apply QFile_read_same] ].

Ltac frame_goal :=
  unfold only_position_moved; cbn;
  rewrite ?mutex_depth_app; cbn;
  repeat match goal with |- _ /\ _ => split end;
  try reflexivity; try lia;
  try (match goal with
       | |- match ?x with _ => _ end =>
           destruct x; [apply same_source_refl | exact I]
       end);
  try same_source_goal.

Lemma doGetLineString_frame (w w' : World) (i : Z) (s : QString) :
  doGetLineString i w = Return s w' ->
  only_position_moved (this w) (this w') /\
  disk w' = disk w /\
  mutex_depth (events w') = mutex_depth (events w).
Proof.
  intros H. open_world w. unfold doGetLineString in H. exec H.
  all: injection H as <- <-; frame_goal.
Qed.

Lemma doGetExpandedLineString_frame (w w' : World) (i : Z) (s : QString) :
  doGetExpandedLineString i w = Return s w' ->
  only_position_moved (this w) (this w') /\
  disk w' = disk w /\
  mutex_depth (events w') = mutex_depth (events w).
Proof.
  intros H. open_world w. unfold doGetExpandedLineString in H. exec H.
  all: injection H as <- <-; frame_goal.
Qed.

Lemma doGetLineLength_frame (w w' : World) (i n : Z) :
  doGetLineLength i w = Return n w' ->
  only_position_moved (this w) (this w') /\
  disk w' = disk w /\
  mutex_depth (events w') = mutex_depth (events w).
Proof.
  intros H. open_world w. unfold doGetLineLength, doGetExpandedLineString in H.
  exec H.
  all: injection H as <- <-; frame_goal.
Qed.

Section Frames.

Context {platform : Platform}.

Lemma doGetLines_frame (w w' : World) (first_line number : Z) (lines : list QString) :
  doGetLines first_line number w = Return lines w' ->
  only_position_moved (this w) (this w') /\
  disk w' = disk w /\
  mutex_depth (events w') = mutex_depth (events w).
Proof.
  intros H. open_world w. unfold doGetLines in H. exec H.
  all: injection H as <- <-; frame_goal.
Qed.

Lemma doGetExpandedLines_frame
    (w w' : World) (first_line number : Z) (lines : list QString) :
  doGetExpandedLines first_line number w = Return lines w' ->
  only_position_moved (this w) (this w') /\
  disk w' = disk w /\
  mutex_depth (events w') = mutex_depth (events w).
Proof.
  intros H. open_world w. unfold doGetExpandedLines in H. exec H.
  all: injection H as <- <-; frame_goal.
Qed.

(** X5.  A read that returns has changed nothing of the facade but the read
    position of its source: the index, the queue, the codec, the change
    state, the date and the calls made to the worker are as before, the
    source has the same name, the same bytes and is open or closed as
    before, the disk is untouched, and the file mutex is held exactly as
    many times as before the call.  This holds for the two single-line
    readers, the two range readers and the line-length reader, in any
    world. *)
Theorem reads_only_move_the_position (w : World) (line first_line number : Z) :
  when_returned (doGetLineString line w) (read_only w) /\
  when_returned (doGetExpandedLineString line w) (read_only w) /\
  when_returned (doGetLineLength line w) (read_only w) /\
  when_returned (doGetLines first_line number w) (read_only w) /\
  when_returned (doGetExpandedLines first_line number w) (read_only w).
Proof.
  unfold when_returned, read_only. repeat split.
  - destruct (doGetLineString line w) eqn:H; try exact I.
    exact (doGetLineString_frame _ _ _ _ H).
  - destruct (doGetExpandedLineString line w) eqn:H; try exact I.
    exact (doGetExpandedLineString_frame _ _ _ _ H).
  - destruct (doGetLineLength line w) eqn:H; try exact I.
    exact (doGetLineLength_frame _ _ _ _ H).
  - destruct (doGetLines first_line number w) eqn:H; try exact I.
    exact (doGetLines_frame _ _ _ _ _ H).
  - destruct (doGetExpandedLines first_line number w) eqn:H; try exact I.
    exact (doGetExpandedLines_frame _ _ _ _ _ H).
Qed.

End Frames.

(** ** Reads do not disturb one another *)

Lemma readLine_after_seek_same (f f' : QFile) (pos : Z) :
  same_source f f' -> 0 <= pos ->
  fst (QFile_readLine (QFile_seek pos f)) = fst (QFile_readLine (QFile_seek pos f')).
Proof.
  intros (_ & Hmode & Hbytes) Hpos.
  destruct (openMode f) eqn:E;
    unfold QFile_readLine, QFile_seek; rewrite ?E, ?Hmode; cbn;
    rewrite ?E, ?Hmode; [reflexivity|].
  destruct (Z.ltb_spec pos 0); [lia|]. cbn. rewrite Hbytes. reflexivity.
Qed.

Lemma read_after_seek_same (f f' : QFile) (pos maxSize : Z) :
  same_source f f' -> 0 <= pos ->
  fst (QFile_read maxSize (QFile_seek pos f))
  = fst (QFile_read maxSize (QFile_seek pos f')).
Proof.
  intros (_ & Hmode & Hbytes) Hpos.
  destruct (openMode f) eqn:E;
    unfold QFile_read, QFile_seek; rewrite ?E, ?Hmode; cbn;
    rewrite ?E, ?Hmode; [reflexivity|].
  destruct (Z.ltb_spec pos 0); [lia|]. cbn.
  destruct (maxSize <? 0); cbn; [reflexivity|]. rewrite Hbytes. reflexivity.
Qed.

Lemma getPosForLine_nonneg (idx : IndexingData) (line pos : Z) :
  offsets_ok idx -> getPosForLine idx line = Some pos -> 0 <= pos.
Proof.
  unfold offsets_ok, getPosForLine. intros Hok H.
  destruct (line <? 0); [discriminate|].
  apply nth_error_In in H. rewrite Forall_forall in Hok. apply Hok. exact H.
Qed.

Lemma doGetLineString_position_free (w v : World) (line : Z) :
  offsets_ok (indexing_data_ (this w)) ->
  only_position_moved (this w) (this v) ->
  value (doGetLineString line w) = value (doGetLineString line v).
Proof.
  intros Hok Hsame. open_world w. open_world v.
  unfold only_position_moved in Hsame. cbn in Hsame.
  destruct Hsame as (-> & -> & -> & -> & -> & -> & -> & Hsrc).
  unfold doGetLineString, start_of_line. run.
  destruct (getNbLines indexing_data_0 <=? line); [reflexivity|]. cbn.
  destruct (line =? 0); cbn.
  - destruct attached_file_0 as [f|], attached_file_1 as [f'|];
      try contradiction; cbn; [| reflexivity].
    destruct codec_0; cbn; [| reflexivity].
    rewrite (readLine_after_seek_same f f' 0 Hsrc) by lia. reflexivity.
  - destruct (getPosForLine indexing_data_0 (line - 1)) as [pos|] eqn:Hpos; cbn;
      [| reflexivity].
    pose proof (getPosForLine_nonneg _ _ _ Hok Hpos).
    destruct attached_file_0 as [f|], attached_file_1 as [f'|];
      try contradiction; cbn; [| reflexivity].
    destruct codec_0; cbn; [| reflexivity].
    rewrite (readLine_after_seek_same f f' pos Hsrc) by lia. reflexivity.
Qed.

Lemma doGetExpandedLineString_position_free (w v : World) (line : Z) :
  offsets_ok (indexing_data_ (this w)) ->
  only_position_moved (this w) (this v) ->
  value (doGetExpandedLineString line w) = value (doGetExpandedLineString line v).
Proof.
  intros Hok Hsame. open_world w. open_world v.
  unfold only_position_moved in Hsame. cbn in Hsame.
  destruct Hsame as (-> & -> & -> & -> & -> & -> & -> & Hsrc).
  unfold doGetExpandedLineString, start_of_line. run.
  destruct (getNbLines indexing_data_0 <=? line); [reflexivity|]. cbn.
  destruct (line =? 0); cbn.
  - destruct attached_file_0 as [f|], attached_file_1 as [f'|];
      try contradiction; cbn; [| reflexivity].
    destruct codec_0; cbn; [| reflexivity].
    rewrite (readLine_after_seek_same f f' 0 Hsrc) by lia. reflexivity.
  - destruct (getPosForLine indexing_data_0 (line - 1)) as [pos|] eqn:Hpos; cbn;
      [| reflexivity].
    pose proof (getPosForLine_nonneg _ _ _ Hok Hpos).
    destruct attached_file_0 as [f|], attached_file_1 as [f'|];
      try contradiction; cbn; [| reflexivity].
    destruct codec_0; cbn; [| reflexivity].
    rewrite (readLine_after_seek_same f f' pos Hsrc) by lia. reflexivity.
Qed.

Lemma doGetLineLength_position_free (w v : World) (line : Z) :
  offsets_ok (indexing_data_ (this w)) ->
  only_position_moved (this w) (this v) ->
  value (doGetLineLength line w) = value (doGetLineLength line v).
Proof.
  intros Hok Hsame.
  pose proof (doGetExpandedLineString_position_free w v line Hok Hsame) as H.
  assert (Hidx : indexing_data_ (this v) = indexing_data_ (this w))
    by (apply Hsame).
  unfold doGetLineLength, bind, get, ret. rewrite Hidx.
  destruct (getNbLines (indexing_data_ (this w)) <=? line); [reflexivity|].
  destruct (doGetExpandedLineString line w), (doGetExpandedLineString line v);
    cbn in *; congruence.
Qed.

Section Undisturbed.

Context {platform : Platform}.

Lemma doGetLines_position_free (w v : World) (first_line number : Z) :
  offsets_ok (indexing_data_ (this w)) ->
  only_position_moved (this w) (this v) ->
  value (doGetLines first_line number w) = value (doGetLines first_line number v).
Proof.
  intros Hok Hsame. open_world w. open_world v.
  unfold only_position_moved in Hsame. cbn in Hsame.
  destruct Hsame as (-> & -> & -> & -> & -> & -> & -> & Hsrc).
  unfold doGetLines, start_of_line. run.
  destruct (number =? 0); [reflexivity|]. cbn.
  destruct (getNbLines indexing_data_0 <=? last_line_of first_line number);
    [reflexivity|]. cbn.
  assert (Hfirst : forall r : option Z,
             r = (if first_line =? 0 then Some 0
                  else getPosForLine indexing_data_0 (first_line - 1)) ->
             forall pos, r = Some pos -> 0 <= pos).
  { intros r -> pos. destruct (first_line =? 0).
    - intros [= <-]. lia.
    - apply getPosForLine_nonneg. exact Hok. }
  destruct (first_line =? 0); cbn.
  - destruct (getPosForLine indexing_data_0 (last_line_of first_line number));
      cbn; [| reflexivity].
    destruct attached_file_0 as [f|], attached_file_1 as [f'|];
      try contradiction; cbn; [| reflexivity].
    destruct codec_0; cbn; [| reflexivity].
    rewrite (read_after_seek_same f f' 0 _ Hsrc) by lia.
    match goal with |- context [lines_loop ?a ?b ?c ?d ?e ?g ?h ?i ?j] =>
      destruct (lines_loop a b c d e g h i j) end; reflexivity.
  - destruct (getPosForLine indexing_data_0 (first_line - 1)) as [pos|] eqn:Hpos;
      cbn; [| reflexivity].
    pose proof (Hfirst _ eq_refl pos eq_refl) as Hnonneg.
    destruct (getPosForLine indexing_data_0 (last_line_of first_line number));
      cbn; [| reflexivity].
    destruct attached_file_0 as [f|], attached_file_1 as [f'|];
      try contradiction; cbn; [| reflexivity].
    destruct codec_0; cbn; [| reflexivity].
    rewrite (read_after_seek_same f f' pos _ Hsrc) by lia.
    match goal with |- context [lines_loop ?a ?b ?c ?d ?e ?g ?h ?i ?j] =>
      destruct (lines_loop a b c d e g h i j) end; reflexivity.
Qed.

Lemma doGetExpandedLines_position_free (w v : World) (first_line number : Z) :
  offsets_ok (indexing_data_ (this w)) ->
  only_position_moved (this w) (this v) ->
  value (doGetExpandedLines first_line number w) = value (doGetExpandedLines first_line number v).
Proof.
  intros Hok Hsame. open_world w. open_world v.
  unfold only_position_moved in Hsame. cbn in Hsame.
  destruct Hsame as (-> & -> & -> & -> & -> & -> & -> & Hsrc).
  unfold doGetExpandedLines, start_of_line. run.
  destruct (number =? 0); [reflexivity|]. cbn.
  destruct (getNbLines indexing_data_0 <=? last_line_of first_line number);
    [reflexivity|]. cbn.
  assert (Hfirst : forall r : option Z,
             r = (if first_line =? 0 then Some 0
                  else getPosForLine indexing_data_0 (first_line - 1)) ->
             forall pos, r = Some pos -> 0 <= pos).
  { intros r -> pos. destruct (first_line =? 0).
    - intros [= <-]. lia.
    - apply getPosForLine_nonneg. exact Hok. }
  destruct (first_line =? 0); cbn.
  - destruct (getPosForLine indexing_data_0 (last_line_of first_line number));
      cbn; [| reflexivity].
    destruct attached_file_0 as [f|], attached_file_1 as [f'|];
      try contradiction; cbn; [| reflexivity].
    destruct codec_0; cbn; [| reflexivity].
    rewrite (read_after_seek_same f f' 0 _ Hsrc) by lia.
    match goal with |- context [lines_loop ?a ?b ?c ?d ?e ?g ?h ?i ?j] =>
      destruct (lines_loop a b c d e g h i j) end; reflexivity.
  - destruct (getPosForLine indexing_data_0 (first_line - 1)) as [pos|] eqn:Hpos;
      cbn; [| reflexivity].
    pose proof (Hfirst _ eq_refl pos eq_refl) as Hnonneg.
    destruct (getPosForLine indexing_data_0 (last_line_of first_line number));
      cbn; [| reflexivity].
    destruct attached_file_0 as [f|], attached_file_1 as [f'|];
      try contradiction; cbn; [| reflexivity].
    destruct codec_0; cbn; [| reflexivity].
    rewrite (read_after_seek_same f f' pos _ Hsrc) by lia.
    match goal with |- context [lines_loop ?a ?b ?c ?d ?e ?g ?h ?i ?j] =>
      destruct (lines_loop a b c d e g h i j) end; reflexivity.
Qed.

(** X6.  What a read returns does not depend on where earlier reads left
    the source: in two worlds that differ by the read position only (such
    as before and after any read, X5), with an index that holds no negative
    offset, each of the five readers returns the same value, or returns in
    neither. *)
Theorem reads_do_not_disturb_reads (w v : World) (line first_line number : Z) :
  offsets_ok (indexing_data_ (this w)) ->
  read_only w v ->
  value (doGetLineString line w) = value (doGetLineString line v) /\
  value (doGetExpandedLineString line w) = value (doGetExpandedLineString line v) /\
  value (doGetLineLength line w) = value (doGetLineLength line v) /\
  value (doGetLines first_line number w) = value (doGetLines first_line number v) /\
  value (doGetExpandedLines first_line number w)
  = value (doGetExpandedLines first_line number v).
Proof.
  intros Hok (Hsame & _). repeat split.
  - apply doGetLineString_position_free; assumption.
  - apply doGetExpandedLineString_position_free; assumption.
  - apply doGetLineLength_position_free; assumption.
  - apply doGetLines_position_free; assumption.
  - apply doGetExpandedLines_position_free; assumption.
Qed.

End Undisturbed.

(** ** A source that holds less than the index says *)

Lemma readLine_closed (f : QFile) (pos : Z) :
  openMode f = NotOpen -> fst (QFile_readLine (QFile_seek pos f)) = [].
Proof.
  intros H. unfold QFile_seek. rewrite H. unfold QFile_readLine. rewrite H.
  reflexivity.
Qed.

(** X7.  A single-line read of an indexed line never faults on a facade
    that has a source and a codec, whatever the source holds: it returns
    the decoding of what [readLine] finds from the start of the line, less
    one code unit.  On a source that could not be opened that is the
    decoding of no bytes less one unit: the empty string for a single-byte
    codec. *)
Theorem single_read_survives_a_closed_source
    (w : World) (f : QFile) (codec : QTextCodec) (i : Z) :
  attached_file_ (this w) = Some f ->
  codec_ (this w) = Some codec ->
  0 <= i < getNbLines (indexing_data_ (this w)) ->
  (exists s w', doGetLineString i w = Return s w') /\
  (openMode f = NotOpen ->
   exists w', doGetLineString i w = Return (chop 1 (toUnicode codec [])) w') /\
  (openMode f = NotOpen -> single_byte codec ->
   exists w', doGetLineString i w = Return [] w').
Proof.
  intros Hfile Hcodec Hi.
  destruct (doGetLineString_steps w f codec i Hfile Hcodec Hi) as (w' & Hrun & _).
  split; [do 2 eexists; exact Hrun|].
  split.
  - intros Hclosed. rewrite (readLine_closed f _ Hclosed) in Hrun.
    exists w'. exact Hrun.
  - intros Hclosed [dec [Hdec _]]. rewrite (readLine_closed f _ Hclosed) in Hrun.
    rewrite Hdec in Hrun. exists w'. exact Hrun.
Qed.

Lemma read_length_bound (f : QFile) (pos maxSize : Z) :
  0 <= pos ->
  len (fst (QFile_read maxSize (QFile_seek pos f)))
  <= Z.max 0 (len (contents f) - pos).
Proof.
  intros Hpos. unfold QFile_seek.
  destruct (openMode f) eqn:E; unfold QFile_read; rewrite ?E; cbn; [unfold len; cbn; lia|].
  destruct (Z.ltb_spec pos 0); [lia|]. cbn.
  destruct (maxSize <? 0); cbn; [unfold len; cbn; lia|].
  unfold len. rewrite length_firstn, length_skipn. lia.
Qed.

Lemma read_closed (f : QFile) (pos maxSize : Z) :
  openMode f = NotOpen -> fst (QFile_read maxSize (QFile_seek pos f)) = [].
Proof.
  intros H. unfold QFile_seek. rewrite H. unfold QFile_read. rewrite H. reflexivity.
Qed.

Lemma lines_loop_overrun (finish : QString -> QString) (idx : IndexingData)
    (codec : QTextCodec) (blob : QByteArray) (first_byte : Z)
    (todo : nat) (line : Z) (decoder : ConverterState) :
  (0 < todo)%nat ->
  0 <= line < getNbLines idx ->
  len blob + 1 < line_end idx line - first_byte - 1 ->
  lines_loop finish idx codec blob first_byte todo line 0 decoder
  = inl BufferOverrun.
Proof.
  intros Htodo Hline Hshort. destruct todo as [| todo]; [lia|].
  cbn [lines_loop]. rewrite getPosForLine_indexed by lia.
  cbv zeta. unfold blob_at.
  destruct (Z.leb_spec (0 + (line_end idx line - first_byte - 0 - 1)) (len blob + 1));
    [lia|].
  rewrite andb_false_r. reflexivity.
Qed.

Section ShortSource.

Context {platform : Platform}.

(** A range read up to its loop, with no assumption on what the index or
    the source hold. *)
Lemma doGetLines_steps (w : World) (f : QFile) (codec : QTextCodec)
    (first_line number : Z) :
  attached_file_ (this w) = Some f ->
  codec_ (this w) = Some codec ->
  0 <= first_line -> 0 < number ->
  first_line + number <= getNbLines (indexing_data_ (this w)) ->
  getNbLines (indexing_data_ (this w)) <= 2 ^ Z.of_N line_bits ->
  let idx := indexing_data_ (this w) in
  let first_byte := prev_end idx first_line in
  let last_byte := line_end idx (first_line + number - 1) in
  let blob := fst (QFile_read (last_byte - first_byte) (QFile_seek first_byte f)) in
  exists w1,
    doGetLines first_line number w
    = lift_fault (lines_loop (fun s => s) idx codec blob first_byte
                             (Z.to_nat number) first_line 0 (makeDecoder codec)) w1.
Proof.
  intros Hfile Hcodec Hfirst Hnumber Hrange Hbits. cbv zeta.
  set (idx := indexing_data_ (this w)) in *.
  set (first_byte := prev_end idx first_line).
  set (last_byte := line_end idx (first_line + number - 1)).
  set (blob := fst (QFile_read (last_byte - first_byte) (QFile_seek first_byte f))).
  assert (Hlast : last_line_of first_line number = first_line + number - 1)
    by (apply wrap_line_small; lia).
  unfold doGetLines.
  rewrite (bind_Return get _ w w (this w) eq_refl). fold idx. rewrite Hlast.
  destruct (Z.eqb_spec number 0); [lia|].
  destruct (Z.leb_spec (getNbLines idx) (first_line + number - 1)); [lia|].
  rewrite (bind_Return _ _ _ _ _ (start_of_line_result w first_line ltac:(fold idx; lia))).
  rewrite (bind_Return _ _ _ _ _ (posForLine_result w (first_line + number - 1)
                                    ltac:(fold idx; lia))).
  fold idx first_byte last_byte.
  set (w1 := {| this := this w; disk := disk w; events := events w ++ [MutexLock] |}).
  rewrite (bind_Return (emit MutexLock) _ w w1 tt eq_refl).
  rewrite (bind_Return _ _ _ _ _ (file_seek_result w1 f first_byte Hfile)).
  match goal with |- context [bind (file_read ?n) _ ?w2] =>
    rewrite (bind_Return _ _ _ _ _ (file_read_result w2 (QFile_seek first_byte f) n eq_refl))
  end.
  fold blob.
  match goal with |- context [bind (emit MutexUnlock) _ ?w3] =>
    rewrite (bind_Return (emit MutexUnlock) _ w3 _ tt eq_refl)
  end.
  match goal with |- context [bind the_codec _ ?w4] =>
    assert (Hc : the_codec w4 = Return codec w4)
      by (unfold the_codec; run; rewrite Hcodec; reflexivity);
    rewrite (bind_Return _ _ _ _ _ Hc)
  end.
  replace (Z.to_nat (first_line + number - 1 - first_line + 1))
    with (Z.to_nat number) by lia.
  eexists. reflexivity.
Qed.

Lemma doGetExpandedLines_steps (w : World) (f : QFile) (codec : QTextCodec)
    (first_line number : Z) :
  attached_file_ (this w) = Some f ->
  codec_ (this w) = Some codec ->
  0 <= first_line -> 0 < number ->
  first_line + number <= getNbLines (indexing_data_ (this w)) ->
  getNbLines (indexing_data_ (this w)) <= 2 ^ Z.of_N line_bits ->
  let idx := indexing_data_ (this w) in
  let first_byte := prev_end idx first_line in
  let last_byte := line_end idx (first_line + number - 1) in
  let blob := fst (QFile_read (last_byte - first_byte) (QFile_seek first_byte f)) in
  exists w1,
    doGetExpandedLines first_line number w
    = lift_fault (lines_loop untabify idx codec blob first_byte
                             (Z.to_nat number) first_line 0 (makeDecoder codec)) w1.
Proof.
  intros Hfile Hcodec Hfirst Hnumber Hrange Hbits. cbv zeta.
  set (idx := indexing_data_ (this w)) in *.
  set (first_byte := prev_end idx first_line).
  set (last_byte := line_end idx (first_line + number - 1)).
  set (blob := fst (QFile_read (last_byte - first_byte) (QFile_seek first_byte f))).
  assert (Hlast : last_line_of first_line number = first_line + number - 1)
    by (apply wrap_line_small; lia).
  unfold doGetExpandedLines.
  rewrite (bind_Return get _ w w (this w) eq_refl). fold idx. rewrite Hlast.
  destruct (Z.eqb_spec number 0); [lia|].
  destruct (Z.leb_spec (getNbLines idx) (first_line + number - 1)); [lia|].
  set (w1 := {| this := this w; disk := disk w; events := events w ++ [MutexLock] |}).
  rewrite (bind_Return (emit MutexLock) _ w w1 tt eq_refl).
  assert (Hidx1 : indexing_data_ (this w1) = idx) by reflexivity.
  rewrite (bind_Return _ _ _ _ _ (start_of_line_result w1 first_line
                                    ltac:(rewrite Hidx1; lia))).
  rewrite (bind_Return _ _ _ _ _ (posForLine_result w1 (first_line + number - 1)
                                    ltac:(rewrite Hidx1; lia))).
  rewrite Hidx1. fold first_byte last_byte.
  rewrite (bind_Return _ _ _ _ _ (file_seek_result w1 f first_byte Hfile)).
  match goal with |- context [bind (file_read ?n) _ ?w2] =>
    rewrite (bind_Return _ _ _ _ _ (file_read_result w2 (QFile_seek first_byte f) n eq_refl))
  end.
  fold blob.
  match goal with |- context [bind (emit MutexUnlock) _ ?w3] =>
    rewrite (bind_Return (emit MutexUnlock) _ w3 _ tt eq_refl)
  end.
  match goal with |- context [bind the_codec _ ?w4] =>
    assert (Hc : the_codec w4 = Return codec w4)
      by (unfold the_codec; run; rewrite Hcodec; reflexivity);
    rewrite (bind_Return _ _ _ _ _ Hc)
  end.
  replace (Z.to_nat (first_line + number - 1 - first_line + 1))
    with (Z.to_nat number) by lia.
  eexists. reflexivity.
Qed.

(** X8.  A range read trusts the index for the size of every slice and
    never looks at how many bytes [read] returned.  When the first line of
    a valid range holds at least two bytes besides its last one and the
    source is closed, or ends more than one byte short of where the index
    places the last byte of that line (a file truncated since it was
    indexed), the first slice reaches more than one byte beyond the bytes
    read, past the terminator kept after them: both range readers leave
    defined behaviour there. *)
Theorem range_read_overruns_a_short_source
    (w : World) (f : QFile) (codec : QTextCodec) (first_line number : Z) :
  attached_file_ (this w) = Some f ->
  codec_ (this w) = Some codec ->
  0 <= first_line -> 0 < number ->
  first_line + number <= getNbLines (indexing_data_ (this w)) ->
  getNbLines (indexing_data_ (this w)) <= 2 ^ Z.of_N line_bits ->
  let idx := indexing_data_ (this w) in
  0 <= prev_end idx first_line ->
  prev_end idx first_line + 2 < line_end idx first_line ->
  openMode f = NotOpen \/ len (contents f) + 1 < line_end idx first_line - 1 ->
  doGetLines first_line number w = Crash BufferOverrun /\
  doGetExpandedLines first_line number w = Crash BufferOverrun.
Proof.
  intros Hfile Hcodec Hfirst Hnumber Hrange Hbits. cbv zeta.
  set (idx := indexing_data_ (this w)) in *.
  intros Hstart Hline Hshort.
  set (first_byte := prev_end idx first_line) in *.
  set (last_byte := line_end idx (first_line + number - 1)).
  set (blob := fst (QFile_read (last_byte - first_byte) (QFile_seek first_byte f))).
  assert (Hblob : len blob + 1 < line_end idx first_line - first_byte - 1).
  { destruct Hshort as [Hclosed | Htrunc].
    - unfold blob. rewrite (read_closed f _ _ Hclosed). unfold len. cbn. lia.
    - pose proof (read_length_bound f first_byte (last_byte - first_byte) Hstart).
      fold blob in H. lia. }
  split.
  - destruct (doGetLines_steps w f codec first_line number
                Hfile Hcodec Hfirst Hnumber Hrange Hbits) as (w1 & Hrun).
    cbv zeta in Hrun. fold idx first_byte last_byte blob in Hrun.
    rewrite Hrun, lines_loop_overrun by (fold idx; lia). reflexivity.
  - destruct (doGetExpandedLines_steps w f codec first_line number
                Hfile Hcodec Hfirst Hnumber Hrange Hbits) as (w1 & Hrun).
    cbv zeta in Hrun. fold idx first_byte last_byte blob in Hrun.
    rewrite Hrun, lines_loop_overrun by (fold idx; lia). reflexivity.
Qed.

End ShortSource.

(** ** The shape of what a range read returns *)

Lemma lines_loop_length (finish : QString -> QString) (idx : IndexingData)
    (codec : QTextCodec) (blob : QByteArray) (first_byte : Z)
    (todo : nat) (line beginning : Z) (decoder : ConverterState)
    (lines : list QString) :
  lines_loop finish idx codec blob first_byte todo line beginning decoder = inr lines ->
  length lines = todo.
Proof.
  revert line beginning decoder lines.
  induction todo as [| todo IH]; intros line beginning decoder lines H;
    cbn [lines_loop] in H.
  - injection H as <-. reflexivity.
  - destruct (getPosForLine idx line) as [pos|]; [| discriminate H].
    cbv zeta in H.
    destruct (blob_at blob beginning (pos - first_byte - beginning - 1));
      [| discriminate H].
    destruct (lines_loop finish idx codec blob first_byte todo (line + 1)
                         (pos - first_byte) _) as [fault | rest] eqn:Hrest;
      [discriminate H|].
    injection H as <-. cbn. f_equal. apply (IH _ _ _ _ Hrest).
Qed.

Section RangeShape.

Context {platform : Platform}.

(** X9.  A range read of a valid range that returns, returns one string for
    each line asked for: [number] of them.  (Outside a valid range it
    returns none, C7 and C10.) *)
Theorem range_read_returns_one_string_per_line
    (w w' w'' : World) (first_line number : Z) (lines expanded : list QString) :
  0 <= first_line -> 0 < number ->
  first_line + number <= getNbLines (indexing_data_ (this w)) ->
  getNbLines (indexing_data_ (this w)) <= 2 ^ Z.of_N line_bits ->
  (doGetLines first_line number w = Return lines w' ->
   Z.of_nat (length lines) = number) /\
  (doGetExpandedLines first_line number w = Return expanded w'' ->
   Z.of_nat (length expanded) = number).
Proof.
  intros Hfirst Hnumber Hrange Hbits.
  assert (Hlast : last_line_of first_line number = first_line + number - 1)
    by (apply wrap_line_small; lia).
  split; intros H; open_world w.
  - unfold doGetLines in H. rewrite Hlast in H. exec H.
    all: try (apply Z.eqb_eq in Heqb; lia).
    all: try (apply Z.leb_le in Heqb0; lia).
    all: injection H as <- _.
    all: match goal with L : lines_loop _ _ _ _ _ _ _ _ _ = inr _ |- _ =>
           apply lines_loop_length in L; rewrite L end; lia.
  - unfold doGetExpandedLines in H. rewrite Hlast in H. exec H.
    all: try (apply Z.eqb_eq in Heqb; lia).
    all: try (apply Z.leb_le in Heqb0; lia).
    all: injection H as <- _.
    all: match goal with L : lines_loop _ _ _ _ _ _ _ _ _ = inr _ |- _ =>
           apply lines_loop_length in L; rewrite L end; lia.
Qed.

End RangeShape.

(** ** What every call carries on *)

Lemma QFile_open_name (dsk : Disk) (name : string) :
  fileName (QFile_open dsk (QFile_new name)) = name.
Proof. unfold QFile_open, QFile_new. cbn. destruct (dsk name); reflexivity. Qed.

Lemma carried_on_refl (w : World) : carried_on w w.
Proof.
  unfold carried_on. repeat split; try tauto.
  intros f H. exists f. split; [exact H | reflexivity].
Qed.

Lemma carried_on_trans (w1 w2 w3 : World) :
  carried_on w1 w2 -> carried_on w2 w3 -> carried_on w1 w3.
Proof.
  intros (Hq1 & Hm1 & Hn1) (Hq2 & Hm2 & Hn2). repeat split.
  - tauto.
  - congruence.
  - intros f Hf. destruct (Hn1 f Hf) as (f' & Hf' & Hname).
    destruct (Hn2 f' Hf') as (f'' & Hf'' & Hname').
    exists f''. split; [exact Hf'' | congruence].
Qed.

Lemma read_only_carried_on (w w' : World) : read_only w w' -> carried_on w w'.
Proof.
  intros ((_ & Hc & Hn & _ & _ & _ & _ & Hsrc) & _ & Hm).
  unfold carried_on, queue_ok. rewrite Hc, Hn. repeat split; try tauto.
  intros f Hf. rewrite Hf in Hsrc.
  destruct (attached_file_ (this w')) as [f'|]; [| contradiction].
  exists f'. split; [reflexivity | apply Hsrc].
Qed.

Ltac carried_goal :=
  unfold carried_on, queue_ok; cbn;
  rewrite ?mutex_depth_app; cbn;
  repeat match goal with |- _ /\ _ => split end;
  [ try tauto; try (intros ? ?; congruence)
  | lia
  | intros ? ?;
    first [ discriminate
          | eexists; split; [eassumption | reflexivity]
          | eexists; split; [reflexivity|];
            first [ reflexivity | congruence
                  | rewrite QFile_open_name; congruence
                  | cbn; congruence
                  | match goal with
                    | K : Some ?q = Some ?f |- fileName ?g = fileName ?f =>
                        injection K as <-;
                        assert (S : same_source q g) by same_source_goal;
                        exact (proj1 S)
                    end ] ] ].

Lemma attachFile_carried_on (w : World) (name : string) :
  when_returned (attachFile name w) (carried_on w) /\
  (forall e w', attachFile name w = Throw e w' -> carried_on w w').
Proof.
  split.
  - destruct (attachFile name w) eqn:H; try exact I. cbn.
    open_world w. unfold attachFile, enqueueOperation, startOperation, doStart in H.
    exec H. all: inversion H; subst; carried_goal.
  - intros e w' H.
    open_world w. unfold attachFile, enqueueOperation, startOperation, doStart in H.
    exec H. all: inversion H; subst; carried_goal.
Qed.

Section Histories.

Context {platform : Platform}.

Ltac unfold_call H :=
  unfold perform, discard, attachFile, interruptLoading, fileChangedOnDisk,
    indexingFinished, doSetDisplayEncoding, doGetLineString, doGetLineLength,
    doGetExpandedLineString, doGetLines, doGetExpandedLines,
    reload, reOpenFile, enqueueOperation, startOperation, doStart in H.

Lemma perform_carried_on (c : Call) (w w' : World) :
  (perform c w = Return tt w' \/ exists e, perform c w = Throw e w') ->
  carried_on w w'.
Proof.
  intros [H | [e H]]; open_world w; destruct c; unfold_call H; exec H.
  all: inversion H; subst; carried_goal.
Qed.

Lemma step_carried_on (w w' : World) : step w w' -> carried_on w w'.
Proof.
  intros [c w1 w2 H | c e w1 w2 H | idx w1 | dsk w1 | bs f w1 Hf].
  - apply (perform_carried_on c). left. exact H.
  - apply (perform_carried_on c). right. exists e. exact H.
  - open_world w1. carried_goal.
  - open_world w1. carried_goal.
  - open_world w1. subst. carried_goal.
Qed.

Lemma later_carried_on (w w' : World) : later w w' -> carried_on w w'.
Proof.
  intros H. induction H as [w | w1 w2 w3 _ IH Hstep].
  - apply carried_on_refl.
  - apply (carried_on_trans w1 w2 w3 IH). apply step_carried_on. exact Hstep.
Qed.

(** X10.  An operation is pending only while another is running: this holds
    of a facade just constructed and, once it holds, it holds after every
    call that returns or throws, and after whatever the worker thread, the
    disk or the open file do in between. *)
Theorem pending_only_while_running
    (uninit : MonitoredFileStatus) (w w' : World) :
  this w = LogData_new uninit ->
  later w w' ->
  queue_ok (this w').
Proof.
  intros Hnew Hlater. apply (later_carried_on w w' Hlater).
  rewrite Hnew. unfold queue_ok. cbn. tauto.
Qed.

(** X11.  No call returns with the file mutex held (the one exception that
    is thrown, by [attachFile], is thrown before any lock): along any
    history the mutex is held as many times at the end as at the start, so
    not at all for a facade that starts with no event. *)
Theorem mutex_is_released (w w' : World) :
  events w = [] ->
  later w w' ->
  mutex_depth (events w') = 0.
Proof.
  intros Hnone Hlater.
  destruct (later_carried_on w w' Hlater) as (_ & Hdepth & _).
  rewrite Hdepth, Hnone. reflexivity.
Qed.

(** X12.  The facade follows the name it was attached to: whatever is
    called afterwards and however often the source is reopened, the
    attached source carries the name of the first one. *)
Theorem source_keeps_its_name (w w' : World) (f : QFile) :
  attached_file_ (this w) = Some f ->
  later w w' ->
  exists f', attached_file_ (this w') = Some f' /\ fileName f' = fileName f.
Proof.
  intros Hfile Hlater.
  destruct (later_carried_on w w' Hlater) as (_ & _ & Hname).
  apply Hname. exact Hfile.
Qed.

End Histories.

(** ** The file-change slot, in full *)

Lemma reopen_when_inconsistent_events (w : World) (f : QFile) :
  attached_file_ (this w) = Some f ->
  let consistent :=
    QFileInfo_size (disk w) (fileName f) = QFile_size (disk w) f /\
    openMode f = ReadOnly in
  exists f1 evs,
    (if negb (QFileInfo_size (disk w) (fileName f) =? QFile_size (disk w) f)
        || match openMode f with NotOpen => true | ReadOnly => false end
     then reOpenFile else ret tt) w
    = Return tt {| this := set_attached_file_ (Some f1) (this w);
                   disk := disk w;
                   events := events w ++ evs |} /\
    (consistent -> f1 = f /\ evs = []) /\
    (~ consistent ->
     f1 = QFile_open (disk w) (QFile_new (fileName f)) /\
     evs = [MutexLock; MutexUnlock]) /\
    fileName f1 = fileName f /\
    QFile_size (disk w) f1 = QFileInfo_size (disk w) (fileName f).
Proof.
  intros H consistent. subst consistent.
  destruct (negb (QFileInfo_size (disk w) (fileName f) =? QFile_size (disk w) f)
            || match openMode f with NotOpen => true | ReadOnly => false end) eqn:E.
  - rewrite (reOpenFile_result w f H). do 2 eexists.
    split; [reflexivity|].
    apply orb_true_iff in E.
    split.
    { intros [Hs Ho]. exfalso. destruct E as [E | E].
      - apply negb_true_iff, Z.eqb_neq in E. contradiction.
      - rewrite Ho in E. discriminate E. }
    split; [intros _; split; reflexivity|].
    split; [apply QFile_open_name | apply QFile_size_reopened].
  - exists f, []. apply orb_false_elim in E. destruct E as [E1 E2].
    apply negb_false_iff in E1. apply Z.eqb_eq in E1.
    split; [rewrite app_nil_r; open_world w; subst; reflexivity|].
    split; [intros _; split; reflexivity|].
    split.
    { intros Hno. exfalso. apply Hno. split; [exact E1|].
      destruct (openMode f); [discriminate E2 | reflexivity]. }
    split; [reflexivity | congruence].
Qed.

Lemma fileChangedOnDisk_result (w : World) (f : QFile) (filename : string) :
  attached_file_ (this w) = Some f ->
  let S_indexed := getSize (indexing_data_ (this w)) in
  let S_now := QFileInfo_size (disk w) (fileName f) in
  let changed :=
    S_now < S_indexed \/
    (S_indexed < S_now /\ fileChangedOnDisk_ (this w) <> DataAdded) in
  let consistent :=
    QFileInfo_size (disk w) (fileName f) = QFile_size (disk w) f /\
    openMode f = ReadOnly in
  exists w' f' evs,
    fileChangedOnDisk filename w = Return tt w' /\
    (consistent -> f' = f /\ evs = []) /\
    (~ consistent ->
     f' = QFile_open (disk w) (QFile_new (fileName f)) /\
     evs = [MutexLock; MutexUnlock]) /\
    attached_file_ (this w') = Some f' /\
    fileName f' = fileName f /\
    QFile_size (disk w) f' = QFileInfo_size (disk w) (fileName f) /\
    disk w' = disk w /\
    indexing_data_ (this w') = indexing_data_ (this w) /\
    codec_ (this w') = codec_ (this w) /\
    (changed ->
     events w' = events w ++ evs
                 ++ [Emit_fileChanged (fileChangedOnDisk_ (this w'))] /\
     lastModifiedDate_ (this w') = QFileInfo_lastModified (disk w) (fileName f)) /\
    (~ changed ->
     events w' = events w ++ evs /\
     lastModifiedDate_ (this w') = lastModifiedDate_ (this w)).
Proof.
  intros Hfile. cbv zeta.
  destruct (reopen_when_inconsistent_events w f Hfile)
    as (f1 & evs & Hstep & Hsame & Hdiff & Hname & Hsize).
  cbv zeta in Hsame, Hdiff.
  unfold fileChangedOnDisk.
  rewrite (bind_Return _ _ _ _ _ (attached_Some w f Hfile)).
  rewrite (bind_Return getDisk _ w w (disk w) eq_refl).
  rewrite (bind_Return get _ w w (this w) eq_refl).
  rewrite (bind_Return _ _ _ _ _ Hstep).
  match goal with |- context [bind attached _ ?w1] =>
    rewrite (bind_Return attached _ w1 w1 f1 eq_refl)
  end.
  rewrite Hsize. unfold getSize. clear Hstep.
  set (S_now := QFileInfo_size (disk w) (fileName f)) in *.
  set (S_indexed := indexedSize (indexing_data_ (this w))) in *.
  set (modified := QFileInfo_lastModified (disk w) (fileName f)) in *.
  set (size_f := QFile_size (disk w) f) in *.
  set (reopened := QFile_open (disk w) (QFile_new (fileName f))) in *.
  clearbody S_now S_indexed modified size_f reopened.
  open_world w. subst attached_file_0.
  unfold enqueueOperation, startOperation. run.
  destruct (Z.ltb_spec S_now S_indexed), (Z.eqb_spec S_now S_indexed),
    fileChangedOnDisk_0, currentOperation_0; cbn;
    try rewrite doStart_calls; cbn;
    (eexists; exists f1, evs; split; [reflexivity|]); cbn;
    rewrite <- ?app_assoc;
    (split; [exact Hsame|]); (split; [exact Hdiff|]);
    repeat match goal with |- _ /\ _ => split end;
    try reflexivity; try assumption;
    intros; try (split; reflexivity);
    try (exfalso; lia); try (exfalso; tauto);
    try (exfalso;
         match goal with K : ~ _ |- _ => apply K end;
         first [left; lia | right; split; [lia | discriminate]]);
    try (exfalso;
         match goal with K : _ \/ _ |- _ => destruct K as [K | [K1 K2]] end;
         first [lia | congruence]).
Qed.


(** X13.  The file-change slot tells its listeners exactly what it acts on.
    When it enqueues a reindex (the source has shrunk, or it has grown and
    no growth was already on record) it emits [fileChanged] once, last, with
    the state it has just set, and takes the modification date from the
    disk.  When it enqueues nothing it emits no signal and keeps the date.
    The only other events are the lock and unlock around a reopening. *)
Theorem file_change_signals_what_it_enqueues
    (w : World) (f : QFile) (filename : string) :
  attached_file_ (this w) = Some f ->
  let S_indexed := getSize (indexing_data_ (this w)) in
  let S_now := QFileInfo_size (disk w) (fileName f) in
  let changed :=
    S_now < S_indexed \/
    (S_indexed < S_now /\ fileChangedOnDisk_ (this w) <> DataAdded) in
  exists w' evs,
    fileChangedOnDisk filename w = Return tt w' /\
    (evs = [] \/ evs = [MutexLock; MutexUnlock]) /\
    (changed ->
     events w' = events w ++ evs
                 ++ [Emit_fileChanged (fileChangedOnDisk_ (this w'))] /\
     lastModifiedDate_ (this w') = QFileInfo_lastModified (disk w) (fileName f)) /\
    (~ changed ->
     events w' = events w ++ evs /\
     lastModifiedDate_ (this w') = lastModifiedDate_ (this w)).
Proof.
  intros Hfile. cbv zeta.
  destruct (fileChangedOnDisk_result w f filename Hfile)
    as (w' & f' & evs & Hrun & Hsame & Hdiff & _ & _ & _ & _ & _ & _ & Hyes & Hno).
  exists w', evs. split; [exact Hrun|]. split.
  - destruct (Z.eq_dec (QFileInfo_size (disk w) (fileName f)) (QFile_size (disk w) f))
      as [Hs | Hs].
    + destruct (openMode f) eqn:Ho.
      * right. apply Hdiff. intros [_ K]. discriminate K.
      * left. apply Hsame. split; [exact Hs | reflexivity].
    + right. apply Hdiff. intros [K _]. contradiction.
  - split; [exact Hyes | exact Hno].
Qed.

(** X14.  After the file-change slot the source is the file now under its
    name: it has the name it had and the size found on disk.  It is a
    freshly opened source when the size under the name differed from that
    of the source, or the source was closed, and the very same source
    otherwise; the index, the codec and the disk are not touched. *)
Theorem file_change_leaves_the_source_on_its_name
    (w : World) (f : QFile) (filename : string) :
  attached_file_ (this w) = Some f ->
  let consistent :=
    QFileInfo_size (disk w) (fileName f) = QFile_size (disk w) f /\
    openMode f = ReadOnly in
  exists w' f',
    fileChangedOnDisk filename w = Return tt w' /\
    attached_file_ (this w') = Some f' /\
    fileName f' = fileName f /\
    QFile_size (disk w') f' = QFileInfo_size (disk w') (fileName f') /\
    (consistent -> f' = f) /\
    (~ consistent -> f' = QFile_open (disk w) (QFile_new (fileName f))) /\
    indexing_data_ (this w') = indexing_data_ (this w) /\
    codec_ (this w') = codec_ (this w) /\
    disk w' = disk w.
Proof.
  intros Hfile. cbv zeta.
  destruct (fileChangedOnDisk_result w f filename Hfile)
    as (w' & f' & evs & Hrun & Hsame & Hdiff & Hsrc & Hname & Hsize & Hdisk
        & Hidx & Hcodec & _).
  exists w', f'. rewrite Hdisk, Hname.
  repeat match goal with |- _ /\ _ => split end; try assumption; try reflexivity.
  - intros K. apply Hsame. exact K.
  - intros K. apply Hdiff. exact K.
Qed.

(** ** The length of a line *)

(** X15.  The length reader and the expanded reader agree in every world
    and for every line number: [doGetLineLength] returns exactly when
    [doGetExpandedLineString] does, and then the number of code units of
    the string that one returns (0 beyond the last line). *)
Theorem line_length_is_that_of_the_expanded_line (w : World) (line : Z) :
  value (doGetLineLength line w)
  = option_map (fun s : QString => Z.of_nat (length s))
               (value (doGetExpandedLineString line w)).
Proof.
  unfold doGetLineLength, bind, get, ret.
  destruct (getNbLines (indexing_data_ (this w)) <=? line) eqn:E.
  - rewrite doGetExpandedLineString_beyond by (apply Z.leb_le; exact E).
    reflexivity.
  - destruct (doGetExpandedLineString line w); reflexivity.
Qed.

(** ** The slots on a facade without a source *)

Section Unattached.

Context {platform : Platform}.

(** X16.  The slots and the reload do not test the source pointer.  On a
    facade to which no file was attached, [fileChangedOnDisk], [reload] and
    [indexingFinished] with status [Successful] dereference the null source;
    so does [doSetDisplayEncoding] when the codec asked for differs from the
    index encoding in MIB and in byte-width class, since it reloads. *)
Theorem slots_dereference_a_missing_source
    (w : World) (filename encoding : string) (forced : option QTextCodec)
    (codec : QTextCodec) :
  attached_file_ (this w) = None ->
  fileChangedOnDisk filename w = Crash NullDereference /\
  reload forced w = Crash NullDereference /\
  indexingFinished Successful w = Crash NullDereference /\
  (let idx := indexing_data_ (this w) in
   let index_codec :=
     match getForcedEncoding idx with
     | Some c => c
     | None => getEncodingGuess idx
     end in
   codecForName encoding = Some codec ->
   mibEnum codec <> mibEnum index_codec ->
   EncodingParameters codec <> EncodingParameters index_codec ->
   doSetDisplayEncoding encoding w = Crash NullDereference).
Proof.
  intros Hnone. open_world w. subst. repeat split.
  intros Hname Hmib Hclass.
  unfold doSetDisplayEncoding, reload, reOpenFile. run. rewrite Hname. cbn.
  apply Z.eqb_neq in Hmib. rewrite Hmib. cbn.
  destruct (EncParams_eq_dec _ _) as [E | E]; [contradiction | reflexivity].
Qed.

(** ** Changing the display encoding, then reading *)

Lemma doSetDisplayEncoding_in_place (w : World) (encoding : string) (codec : QTextCodec) :
  codecForName encoding = Some codec ->
  (let idx := indexing_data_ (this w) in
   EncodingParameters codec
   = EncodingParameters match getForcedEncoding idx with
                        | Some c => c
                        | None => getEncodingGuess idx
                        end) ->
  doSetDisplayEncoding encoding w
  = Return tt (with_this (set_codec_ (Some codec) (this w)) w).
Proof.
  intros Hname Hclass. cbv zeta in Hclass. open_world w.
  unfold doSetDisplayEncoding. run. rewrite Hname. cbn.
  destruct (negb _); [| reflexivity].
  destruct (EncParams_eq_dec _ _) as [E | E]; [reflexivity | contradiction].
Qed.

(** X17.  The display encoding is independent of the index within a
    byte-width class: after [doSetDisplayEncoding] to a single-byte codec of
    the class of the index encoding, a line read returns the same bytes of
    the source, decoded with the new codec, and the worker has received no
    call. *)
Theorem new_encoding_decodes_the_same_bytes
    (w : World) (f : QFile) (encoding : string) (codec : QTextCodec) (i : Z) :
  attached_file_ (this w) = Some f ->
  openMode f = ReadOnly ->
  indexed (contents f) (indexing_data_ (this w)) ->
  0 <= i < getNbLines (indexing_data_ (this w)) ->
  codecForName encoding = Some codec ->
  single_byte codec ->
  (let idx := indexing_data_ (this w) in
   EncodingParameters codec
   = EncodingParameters match getForcedEncoding idx with
                        | Some c => c
                        | None => getEncodingGuess idx
                        end) ->
  exists w',
    (doSetDisplayEncoding encoding ;; doGetLineString i) w
    = Return (line_text codec (contents f) (indexing_data_ (this w)) i) w' /\
    workerThread_ (this w') = workerThread_ (this w) /\
    currentOperation_ (this w') = currentOperation_ (this w) /\
    nextOperation_ (this w') = nextOperation_ (this w).
Proof.
  intros Hfile Hopen Hidx Hi Hname Hsingle Hclass.
  set (w1 := with_this (set_codec_ (Some codec) (this w)) w).
  rewrite (bind_Return _ _ _ _ _ (doSetDisplayEncoding_in_place w encoding codec
                                    Hname Hclass)).
  fold w1.
  destruct (doGetLineString_text w1 f codec i
              ltac:(open_world w; exact Hfile) Hopen eq_refl Hsingle
              ltac:(open_world w; exact Hidx) ltac:(open_world w; exact Hi))
    as (w' & Hrun).
  exists w'. split.
  - rewrite Hrun. open_world w. reflexivity.
  - destruct (doGetLineString_frame w1 w' i _ Hrun)
      as ((_ & Hc & Hn & _ & _ & _ & Hw & _) & _).
    rewrite Hw, Hc, Hn. open_world w. repeat split.
Qed.

End Unattached.

(** ** How the operations follow one another *)

(** X18.  A reload asked for while an operation is running is what runs
    next: the worker is interrupted at once, and when the running operation
    reports its end, with whatever status, the full index with the forced
    encoding of the reload becomes the current operation and is started,
    whatever was pending before. *)
Theorem reload_runs_when_the_interrupted_operation_ends
    (w : World) (f : QFile) (running : LogDataOperation)
    (forced : option QTextCodec) (status : LoadingStatus) :
  attached_file_ (this w) = Some f ->
  currentOperation_ (this w) = Some running ->
  exists w1 w2,
    reload forced w = Return tt w1 /\
    workerThread_ (this w1) = workerThread_ (this w) ++ [W_interrupt] /\
    indexingFinished status w1 = Return tt w2 /\
    currentOperation_ (this w2) = Some (FullIndexOperation forced) /\
    nextOperation_ (this w2) = None /\
    workerThread_ (this w2)
    = workerThread_ (this w) ++ [W_interrupt; W_indexAll forced].
Proof.
  intros Hfile Hbusy.
  destruct (reload_result w f forced Hfile)
    as (w1 & Hrun & Henq & Hsrc & _).
  unfold enqueued in Henq.
  assert (Hcur : currentOperation_
                   (set_workerThread_ (workerThread_ (this w) ++ [W_interrupt]) (this w))
                 = Some running) by (open_world w; exact Hbusy).
  rewrite Hcur in Henq. destruct Henq as (Hc1 & Hn1 & Hw1).
  destruct (indexingFinished_result status w1 running _ Hc1 Hsrc)
    as (w2 & Hrun2 & _ & Hc2 & Hn2 & Hw2 & _).
  exists w1, w2. rewrite Hn1 in Hc2, Hw2. rewrite Hw1 in Hw2.
  assert (Hw : workerThread_ (this w1) = workerThread_ (this w) ++ [W_interrupt])
    by (rewrite Hw1; open_world w; reflexivity).
  repeat split; try assumption.
  rewrite Hw2. open_world w. cbn. rewrite <- app_assoc. reflexivity.
Qed.

(** X19.  Attaching and a successful first indexing, end to end: on an idle
    facade with no source, [attachFile] hands [attachFile] and [indexAll] to
    the worker; when the worker, having published whatever index, reports
    success, the file is handed to the watcher under the attached name, the
    change state is [Unchanged], the date is the one on disk, and the queue
    is empty again with no further call to the worker. *)
Theorem attach_then_success_arms_the_watcher
    (w : World) (name : string) (idx : IndexingData) :
  attached_file_ (this w) = None ->
  currentOperation_ (this w) = None ->
  nextOperation_ (this w) = None ->
  exists w1 w2,
    attachFile name w = Return tt w1 /\
    indexingFinished Successful (with_index idx w1) = Return tt w2 /\
    events w2 = events w ++ [WatcherAddFile name; Emit_loadingFinished Successful] /\
    fileChangedOnDisk_ (this w2) = Unchanged /\
    lastModifiedDate_ (this w2) = QFileInfo_lastModified (disk w) name /\
    currentOperation_ (this w2) = None /\
    nextOperation_ (this w2) = None /\
    workerThread_ (this w2)
    = workerThread_ (this w) ++ [W_attachFile name; W_indexAll None] /\
    indexing_data_ (this w2) = idx.
Proof.
  intros Hnone Hidle Hpending. open_world w. subst.
  unfold attachFile, indexingFinished, enqueueOperation, startOperation, with_index.
  run.
  pose proof (QFile_open_name disk0 name) as Hname.
  unfold QFileInfo_exists, QFileInfo_lastModified.
  destruct (disk0 name) eqn:Hd;
    do 2 eexists; (split; [reflexivity|]); cbn;
    rewrite Hname, Hd; cbn;
    (split; [reflexivity|]); cbn; rewrite <- ?app_assoc; cbn;
    repeat split.
Qed.

#[local] Opaque Z.eqb Z.ltb Z.leb.

(** What the slot does to the change state and to the queue, for use
    below. *)
Lemma fileChangedOnDisk_queue (w : World) (f : QFile) (filename : string) :
  attached_file_ (this w) = Some f ->
  let S_indexed := getSize (indexing_data_ (this w)) in
  let S_now := QFileInfo_size (disk w) (fileName f) in
  exists w',
    fileChangedOnDisk filename w = Return tt w' /\
    (S_now < S_indexed ->
       fileChangedOnDisk_ (this w') = Truncated /\
       enqueued (FullIndexOperation None) (this w) (this w')) /\
    (S_now = S_indexed ->
       fileChangedOnDisk_ (this w') = fileChangedOnDisk_ (this w) /\
       queue_untouched (this w) (this w')) /\
    (S_now > S_indexed -> fileChangedOnDisk_ (this w) <> DataAdded ->
       fileChangedOnDisk_ (this w') = DataAdded /\
       enqueued PartialIndexOperation (this w) (this w')) /\
    (S_now > S_indexed -> fileChangedOnDisk_ (this w) = DataAdded ->
       fileChangedOnDisk_ (this w') = DataAdded /\
       queue_untouched (this w) (this w')).
Proof.
  intros Hfile S_indexed S_now. subst S_indexed S_now.
  destruct (reopen_when_inconsistent w f Hfile)
    as (w1 & f1 & Hstep & Hfile1 & Hsize & Hthis & Hdisk).
  unfold fileChangedOnDisk.
  rewrite (bind_Return _ _ _ _ _ (attached_Some w f Hfile)).
  rewrite (bind_Return getDisk _ w w (disk w) eq_refl).
  rewrite (bind_Return get _ w w (this w) eq_refl).
  rewrite (bind_Return _ _ _ _ _ Hstep).
  rewrite (bind_Return _ _ _ _ _ (attached_Some w1 f1 Hfile1)).
  rewrite Hsize. unfold getSize. clear Hstep Hsize.
  remember (QFileInfo_size (disk w) (fileName f)) as S_now eqn:HS.
  remember (indexedSize (indexing_data_ (this w))) as S_indexed eqn:HI.
  remember (QFileInfo_lastModified (disk w) (fileName f)) as modified eqn:HM.
  clear HS HI HM.
  destruct w1 as [d1 dsk1 evs1]; cbn in Hthis, Hdisk, Hfile1. subst d1 dsk1.
  open_world w. subst.
  unfold enqueueOperation, startOperation. run.
  destruct (Z.ltb_spec S_now S_indexed), (Z.eqb_spec S_now S_indexed),
    fileChangedOnDisk_0, currentOperation_0; cbn;
    try rewrite doStart_calls; cbn;
    (eexists; split; [reflexivity|]);
    unfold enqueued, queue_untouched; cbn;
    repeat split; intros; try lia; try congruence.
Qed.

(** X20.  Growth is indexed once however often it is notified.  On a source
    that has grown past the index, with no growth on record, the first
    notification records [DataAdded] and enqueues a partial index; a second
    notification that arrives before the index has caught up, the file
    having grown further or not, enqueues nothing, emits no signal and
    leaves the state at [DataAdded]. *)
Theorem growth_is_enqueued_once
    (w : World) (f : QFile) (first second : string) (later_disk : Disk) :
  attached_file_ (this w) = Some f ->
  fileChangedOnDisk_ (this w) <> DataAdded ->
  getSize (indexing_data_ (this w)) < QFileInfo_size (disk w) (fileName f) ->
  getSize (indexing_data_ (this w)) < QFileInfo_size later_disk (fileName f) ->
  exists w1 w2 evs,
    fileChangedOnDisk first w = Return tt w1 /\
    fileChangedOnDisk_ (this w1) = DataAdded /\
    enqueued PartialIndexOperation (this w) (this w1) /\
    fileChangedOnDisk second (on_disk later_disk w1) = Return tt w2 /\
    fileChangedOnDisk_ (this w2) = DataAdded /\
    queue_untouched (this w1) (this w2) /\
    events w2 = events w1 ++ evs /\
    (evs = [] \/ evs = [MutexLock; MutexUnlock]).
Proof.
  intros Hfile Hstate Hgrown Hgrown2.
  destruct (fileChangedOnDisk_queue w f first Hfile)
    as (w1 & Hrun1 & _ & _ & Hadded & _).
  destruct (Hadded ltac:(lia) Hstate) as [Hfc1 Henq1].
  destruct (fileChangedOnDisk_result w f first Hfile)
    as (w1' & f1 & evs1 & Hrun1' & _ & _ & Hsrc1 & Hname1 & _ & _ & Hidx1 & _).
  rewrite Hrun1 in Hrun1'. injection Hrun1' as <-.
  set (v := on_disk later_disk w1).
  assert (Hsrcv : attached_file_ (this v) = Some f1) by exact Hsrc1.
  destruct (fileChangedOnDisk_queue v f1 second Hsrcv)
    as (w2 & Hrun2 & _ & _ & _ & Hsame).
  cbv zeta in Hsame.
  destruct (Hsame ltac:(cbn; rewrite Hidx1, Hname1; lia) Hfc1) as [Hfc2 Hq2].
  destruct (fileChangedOnDisk_result v f1 second Hsrcv)
    as (w2' & f2 & evs & Hrun2' & Hcons & Hincons & _ & _ & _ & _ & _ & _ & _ & Hquiet).
  rewrite Hrun2 in Hrun2'. injection Hrun2' as <-.
  cbv zeta in Hquiet.
  destruct Hquiet as [Hev _].
  { cbn. rewrite Hidx1, Hname1. intros [K | [_ K]]; [lia | contradiction]. }
  exists w1, w2, evs.
  repeat match goal with |- _ /\ _ => split end; try assumption.
  destruct (Z.eq_dec (QFileInfo_size (disk v) (fileName f1)) (QFile_size (disk v) f1))
    as [Hs | Hs].
  - destruct (openMode f1) eqn:Ho.
    + right. apply Hincons. intros [_ K]. discriminate K.
    + left. apply Hcons. split; [exact Hs | reflexivity].
  - right. apply Hincons. intros [K _]. contradiction.
Qed.

(** ** The further properties, at concrete facades *)

#[local] Transparent Z.eqb Z.ltb Z.leb.

Lemma reOpenFile_follows_the_name_at_log :
  exists w', reOpenFile (indexed_world "log" one_two) = Return tt w'.
Proof.
  destruct (reOpenFile_follows_the_name (indexed_world "log" one_two)
              (QFile_open (disk_of "log" one_two 1) (QFile_new "log")) eq_refl)
    as (f' & Hrun & _).
  eexists. exact Hrun.
Defined.

Lemma reload_interrupts_then_enqueues_at_log :
  exists w', reload None (indexed_world "log" one_two) = Return tt w'.
Proof.
  destruct (reload_interrupts_then_enqueues (indexed_world "log" one_two)
              (QFile_open (disk_of "log" one_two 1) (QFile_new "log")) None eq_refl)
    as (w' & Hrun & _).
  exists w'. exact Hrun.
Defined.

Lemma only_the_latest_enqueued_runs_of_three :
  exists queued done,
    enqueue_all ([PartialIndexOperation; FullIndexOperation None]
                 ++ [PartialIndexOperation]) (attaching_world "log" one_two)
    = Return tt queued /\
    indexingFinished Successful queued = Return tt done /\
    currentOperation_ (this done) = Some PartialIndexOperation.
Proof.
  destruct (only_the_latest_enqueued_runs (attaching_world "log" one_two)
              [PartialIndexOperation; FullIndexOperation None]
              PartialIndexOperation (AttachOperation "log") Successful
              (QFile_open (disk_of "log" one_two 1) (QFile_new "log"))
              eq_refl eq_refl)
    as (queued & done & H1 & _ & H2 & H3 & _).
  exists queued, done. repeat split; assumption.
Defined.

Lemma attachFile_ignores_a_failed_open_of_missing :
  exists w', attachFile "missing" (fresh_world "log" one_two) = Return tt w'.
Proof.
  destruct (attachFile_ignores_a_failed_open (fresh_world "log" one_two)
              "missing" "log" eq_refl eq_refl eq_refl)
    as (w' & Hrun & _).
  exists w'. exact Hrun.
Defined.

Lemma reads_do_not_disturb_reads_after_line_1 :
  value (doGetLineString 2 (indexed_world "log" alpha_beta_gamma))
  = value (doGetLineString 2
             (world_after (doGetLineString 1) (indexed_world "log" alpha_beta_gamma))).
Proof.
  refine (proj1 (reads_do_not_disturb_reads (platform := example_platform)
                   (indexed_world "log" alpha_beta_gamma)
                   (world_after (doGetLineString 1)
                                (indexed_world "log" alpha_beta_gamma))
                   2 0 3 _ _)).
  - unfold offsets_ok. cbn. repeat constructor; lia.
  - unfold read_only, only_position_moved, same_source. cbn. repeat split.
Defined.

Lemma single_read_survives_a_closed_source_at_line_0 :
  exists s w', doGetLineString 0 (closed_world "log" one_two) = Return s w'.
Proof.
  exact (proj1 (single_read_survives_a_closed_source
                  (closed_world "log" one_two) (QFile_new "log") latin1 0
                  eq_refl eq_refl ltac:(cbn; lia))).
Defined.

Lemma range_read_overruns_a_closed_source :
  doGetLines (platform := example_platform) 0 1 (closed_world "log" one_two)
  = Crash BufferOverrun.
Proof.
  refine (proj1 (range_read_overruns_a_short_source (platform := example_platform)
                   (closed_world "log" one_two) (QFile_new "log") latin1 0 1
                   eq_refl eq_refl _ _ _ _ _ _ _)).
  - lia.
  - lia.
  - cbn. lia.
  - vm_compute. intros H. discriminate H.
  - cbn. lia.
  - cbn. lia.
  - left. reflexivity.
Defined.

Lemma range_read_returns_three_strings :
  Z.of_nat (length [qstring_of "alpha"; qstring_of "beta"; qstring_of "gamma"]) = 3.
Proof.
  refine (proj1 (range_read_returns_one_string_per_line (platform := example_platform)
                   (indexed_world "log" alpha_beta_gamma)
                   (world_after (doGetLines (platform := example_platform) 0 3)
                                (indexed_world "log" alpha_beta_gamma))
                   (indexed_world "log" alpha_beta_gamma)
                   0 3 _ [] _ _ _ _) _).
  - lia.
  - lia.
  - cbn. lia.
  - vm_compute. intros H. discriminate H.
  - reflexivity.
Defined.

Lemma later_after_attach :
  later (platform := example_platform) (fresh_world "log" one_two)
        (world_after (attachFile "log") (fresh_world "log" one_two)).
Proof.
  eapply later_step; [apply later_now|].
  apply (step_returns (Call_attachFile "log")). reflexivity.
Defined.

Lemma pending_only_while_running_after_attach :
  queue_ok (this (world_after (attachFile "log") (fresh_world "log" one_two))).
Proof.
  exact (pending_only_while_running (platform := example_platform) Unchanged
           (fresh_world "log" one_two) _ eq_refl later_after_attach).
Defined.

Lemma mutex_is_released_after_attach :
  mutex_depth (events (world_after (attachFile "log") (fresh_world "log" one_two))) = 0.
Proof.
  exact (mutex_is_released (platform := example_platform)
           (fresh_world "log" one_two) _ eq_refl later_after_attach).
Defined.

Lemma source_keeps_its_name_after_a_reload :
  exists f',
    attached_file_ (this (world_after (reload None) (indexed_world "log" one_two)))
    = Some f' /\
    fileName f' = "log"%string.
Proof.
  refine (source_keeps_its_name (platform := example_platform)
            (indexed_world "log" one_two) _
            (QFile_open (disk_of "log" one_two 1) (QFile_new "log")) eq_refl _).
  eapply later_step; [apply later_now|].
  apply (step_returns (Call_reload None)). reflexivity.
Defined.

Lemma file_change_signals_growth :
  exists w' evs,
    fileChangedOnDisk "log"
      (on_disk (disk_of "log" (alpha_beta_gamma ++ bytes_of ("delta" ++ nl)) 2)
               (indexed_world "log" alpha_beta_gamma))
    = Return tt w' /\
    (evs = [] \/ evs = [MutexLock; MutexUnlock]).
Proof.
  destruct (file_change_signals_what_it_enqueues
              (on_disk (disk_of "log" (alpha_beta_gamma ++ bytes_of ("delta" ++ nl)) 2)
                       (indexed_world "log" alpha_beta_gamma))
              (QFile_open (disk_of "log" alpha_beta_gamma 1) (QFile_new "log"))
              "log" eq_refl)
    as (w' & evs & Hrun & Hevs & _).
  exists w', evs. split; assumption.
Defined.

Lemma file_change_leaves_the_source_on_log :
  exists w' f',
    fileChangedOnDisk "log"
      (on_disk (disk_of "log" (alpha_beta_gamma ++ bytes_of ("delta" ++ nl)) 2)
               (indexed_world "log" alpha_beta_gamma))
    = Return tt w' /\
    attached_file_ (this w') = Some f' /\
    fileName f' = "log"%string.
Proof.
  destruct (file_change_leaves_the_source_on_its_name
              (on_disk (disk_of "log" (alpha_beta_gamma ++ bytes_of ("delta" ++ nl)) 2)
                       (indexed_world "log" alpha_beta_gamma))
              (QFile_open (disk_of "log" alpha_beta_gamma 1) (QFile_new "log"))
              "log" eq_refl)
    as (w' & f' & Hrun & Hsrc & Hname & _).
  exists w', f'. repeat split; assumption.
Defined.

Lemma slots_dereference_a_missing_source_when_fresh :
  fileChangedOnDisk "log" (fresh_world "log" one_two) = Crash NullDereference.
Proof.
  exact (proj1 (slots_dereference_a_missing_source (platform := example_platform)
                  (fresh_world "log" one_two) "log" "UTF-16LE" None utf16le
                  eq_refl)).
Defined.

Lemma new_encoding_decodes_the_same_bytes_at_beta :
  exists w',
    (doSetDisplayEncoding (platform := example_platform) "ISO-8859-1" ;;
     doGetLineString 1) (indexed_world "log" alpha_beta_gamma)
    = Return (qstring_of "beta") w'.
Proof.
  destruct (new_encoding_decodes_the_same_bytes (platform := example_platform)
              (indexed_world "log" alpha_beta_gamma)
              (QFile_open (disk_of "log" alpha_beta_gamma 1) (QFile_new "log"))
              "ISO-8859-1" latin1 1
              eq_refl eq_refl (index_all_indexed alpha_beta_gamma)
              ltac:(cbn; lia) eq_refl latin1_single_byte eq_refl)
    as (w' & Hrun & _).
  exists w'. exact Hrun.
Defined.

Lemma reload_runs_after_the_attach :
  exists w1 w2,
    reload (Some utf16le) (attaching_world "log" one_two) = Return tt w1 /\
    indexingFinished Interrupted w1 = Return tt w2 /\
    currentOperation_ (this w2) = Some (FullIndexOperation (Some utf16le)).
Proof.
  destruct (reload_runs_when_the_interrupted_operation_ends
              (attaching_world "log" one_two)
              (QFile_open (disk_of "log" one_two 1) (QFile_new "log"))
              (AttachOperation "log") (Some utf16le) Interrupted eq_refl eq_refl)
    as (w1 & w2 & H1 & _ & H2 & H3 & _).
  exists w1, w2. repeat split; assumption.
Defined.

Lemma attach_then_success_arms_the_watcher_on_log :
  exists w1 w2,
    attachFile "log" (fresh_world "log" one_two) = Return tt w1 /\
    indexingFinished Successful (with_index (index_all one_two) w1) = Return tt w2 /\
    events w2 = [WatcherAddFile "log"; Emit_loadingFinished Successful].
Proof.
  destruct (attach_then_success_arms_the_watcher (fresh_world "log" one_two)
              "log" (index_all one_two) eq_refl eq_refl eq_refl)
    as (w1 & w2 & H1 & H2 & H3 & _).
  exists w1, w2. repeat split; assumption.
Defined.

Lemma growth_is_enqueued_once_for_delta :
  exists w1 w2,
    fileChangedOnDisk "log"
      (on_disk (disk_of "log" (alpha_beta_gamma ++ bytes_of ("delta" ++ nl)) 2)
               (indexed_world "log" alpha_beta_gamma))
    = Return tt w1 /\
    fileChangedOnDisk "log"
      (on_disk (disk_of "log" (alpha_beta_gamma ++ bytes_of ("delta" ++ nl
                                                             ++ "epsilon" ++ nl)) 3)
               w1)
    = Return tt w2 /\
    queue_untouched (this w1) (this w2).
Proof.
  destruct (growth_is_enqueued_once
              (on_disk (disk_of "log" (alpha_beta_gamma ++ bytes_of ("delta" ++ nl)) 2)
                       (indexed_world "log" alpha_beta_gamma))
              (QFile_open (disk_of "log" alpha_beta_gamma 1) (QFile_new "log"))
              "log" "log"
              (disk_of "log" (alpha_beta_gamma ++ bytes_of ("delta" ++ nl
                                                            ++ "epsilon" ++ nl)) 3)
              eq_refl ltac:(discriminate) eq_refl eq_refl)
    as (w1 & w2 & evs & H1 & _ & _ & H2 & _ & H3 & _).
  exists w1, w2. repeat split; try assumption; apply H3.
Defined.

Lemma range_read_agrees_with_single_reads_at_beta :
  exists lines w1 wk,
    doGetLines (platform := example_platform) 0 3
               (indexed_world "log" alpha_beta_gamma) = Return lines w1 /\
    doGetLineString 1 (indexed_world "log" alpha_beta_gamma)
    = Return (nth 1 lines []) wk.
Proof.
  destruct (proj1 (range_read_agrees_with_single_reads (platform := example_platform)
                     (indexed_world "log" alpha_beta_gamma)
                     (QFile_open (disk_of "log" alpha_beta_gamma 1) (QFile_new "log"))
                     latin1 0 3 1
                     eq_refl eq_refl eq_refl latin1_single_byte
                     ltac:(cbn; intros H; discriminate H)
                     (index_all_indexed alpha_beta_gamma)
                     ltac:(lia) ltac:(lia) ltac:(cbn; lia)
                     ltac:(vm_compute; intros H; discriminate H)
                     ltac:(lia)))
    as (lines & w1 & wk & H1 & _ & H2).
  exists lines, w1, wk. split; assumption.
Defined.
